(** * prefer-object-spread: the rule's walker, usage classifier and fix
      generator, and the JSON formatter

    Shallow embedding of [src/rules/preferObjectSpreadRule.ts] and of the
    [JsonFormatter] class.  The TypeScript syntax tree is an inductive type
    with one constructor per node kind the rule inspects; offsets are [Z];
    the walker threads the list of reported failures as explicit state. *)

From Stdlib Require Import ZArith String Ascii List Bool Lia DecimalString.
From stdpp Require Import base tactics option list.
Import ListNotations.
Local Open Scope string_scope.
Local Open Scope list_scope.
Local Open Scope Z_scope.

(** * Part I: the program *)

(** ** Syntax kinds *)

(** [ts.SyntaxKind], restricted to the tags the two units look at; every
    other tag of the host enum is [Other n] with its numeric code. *)
Module SyntaxKind.
Inductive t : Set :=
| Identifier
| PropertyAccessExpression
| CallExpression
| NewExpression
| ObjectLiteralExpression
| SpreadElement
| ConditionalExpression
| BinaryExpression
| EqualsToken
| PlusEqualsToken
| PlusToken
| QuestionToken
| ColonToken
| ArrayLiteralExpression
| VariableDeclaration
| PropertyAssignment
| PropertyDeclaration
| ReturnStatement
| BindingElement
| ExpressionStatement
| VariableStatement
| VariableDeclarationList
| SourceFile
| Other (code : nat).

Definition eq_dec (a b : t) : {a = b} + {a <> b}.
Proof. decide equality. apply Nat.eq_dec. Defined.

Definition eqb (a b : t) : bool := if eq_dec a b then true else false.

(** The kinds whose nodes have properties the rule reads; each has a
    constructor of its own in [Node]. *)
Definition shaped (k : t) : bool :=
  match k with
  | Identifier | PropertyAccessExpression | CallExpression | NewExpression
  | ObjectLiteralExpression | SpreadElement | ConditionalExpression
  | BinaryExpression => true
  | _ => false
  end.
End SyntaxKind.

(** ** Syntax nodes *)

(** What every node carries.  [ref] is the identity of the node object (two
    nodes are the same object iff their [ref]s agree); [end_] is the node's
    [end] field; [start] is what [node.getStart(sourceFile)] answers, the
    offset of the node's first token once leading trivia is skipped. *)
Record NodeInfo : Set := mkInfo {
  ref : nat;
  start : Z;
  end_ : Z
}.

(** [ts.NodeArray<T>]: the elements with the array's own [end] and the
    optional [hasTrailingComma] flag ([None] when the property is absent). *)
Record NodeArray (A : Type) : Type := mkArray {
  elements : list A;
  array_end : Z;
  hasTrailingComma : option bool
}.
Arguments mkArray {A} _ _ _.
Arguments elements {A} _.
Arguments array_end {A} _.
Arguments hasTrailingComma {A} _.

(** The tree.  Tokens and every node kind without properties of interest
    are [OtherNode]s: a kind (never one of the shaped ones) and the children
    in the order [ts.forEachChild] hands them out. *)
#[warnings="-register-all"]
Inductive Node : Type :=
| Identifier (i : NodeInfo) (text : string)
| PropertyAccessExpression (i : NodeInfo) (expression name : Node)
| CallExpression (i : NodeInfo) (expression : Node)
    (typeArguments : option (NodeArray Node)) (arguments : NodeArray Node)
| NewExpression (i : NodeInfo) (expression : Node)
    (typeArguments : option (NodeArray Node))
    (arguments : option (NodeArray Node))
| ObjectLiteralExpression (i : NodeInfo) (properties : NodeArray Node)
| SpreadElement (i : NodeInfo) (expression : Node)
| ConditionalExpression (i : NodeInfo)
    (condition questionToken whenTrue colonToken whenFalse : Node)
| BinaryExpression (i : NodeInfo) (left operatorToken right : Node)
| OtherNode (i : NodeInfo) (k : SyntaxKind.t)
    (unshaped : SyntaxKind.shaped k = false) (children : list Node).

Definition info (n : Node) : NodeInfo :=
  match n with
  | Identifier i _ | PropertyAccessExpression i _ _
  | CallExpression i _ _ _ | NewExpression i _ _ _
  | ObjectLiteralExpression i _ | SpreadElement i _
  | ConditionalExpression i _ _ _ _ _ | BinaryExpression i _ _ _
  | OtherNode i _ _ _ => i
  end.

(** [node.kind] *)
Definition kind (n : Node) : SyntaxKind.t :=
  match n with
  | Identifier _ _ => SyntaxKind.Identifier
  | PropertyAccessExpression _ _ _ => SyntaxKind.PropertyAccessExpression
  | CallExpression _ _ _ _ => SyntaxKind.CallExpression
  | NewExpression _ _ _ _ => SyntaxKind.NewExpression
  | ObjectLiteralExpression _ _ => SyntaxKind.ObjectLiteralExpression
  | SpreadElement _ _ => SyntaxKind.SpreadElement
  | ConditionalExpression _ _ _ _ _ _ => SyntaxKind.ConditionalExpression
  | BinaryExpression _ _ _ _ => SyntaxKind.BinaryExpression
  | OtherNode _ k _ _ => k
  end.

(** [node.getStart(sourceFile)] and [node.end] *)
Definition getStart (n : Node) : Z := start (info n).
Definition node_end (n : Node) : Z := end_ (info n).

(** [a === b] on node objects *)
Definition same_node (a b : Node) : bool := Nat.eqb (ref (info a)) (ref (info b)).

(** The type guards of tsutils the rule hands to [some] or uses without a
    narrowing [if]: a test of [node.kind]. *)
Definition isIdentifier (n : Node) : bool :=
  SyntaxKind.eqb (kind n) SyntaxKind.Identifier.
Definition isSpreadElement (n : Node) : bool :=
  SyntaxKind.eqb (kind n) SyntaxKind.SpreadElement.

(** Property reads; [None] is JavaScript's [undefined]. *)
Definition text_of (n : Node) : option string :=
  match n with Identifier _ t => Some t | _ => None end.

(** [node.text === s] *)
Definition text_is (n : Node) (s : string) : bool :=
  match text_of n with Some t => String.eqb t s | None => false end.

Definition arguments_of (n : Node) : option (NodeArray Node) :=
  match n with
  | CallExpression _ _ _ args => Some args
  | NewExpression _ _ _ args => args
  | _ => None
  end.

Definition operatorToken_of (n : Node) : option Node :=
  match n with BinaryExpression _ _ op _ => Some op | _ => None end.

(** ** The tree as lists *)

(** The children of a node, in the order [forEachChild] visits them. *)
Definition children (n : Node) : list Node :=
  match n with
  | Identifier _ _ => []
  | PropertyAccessExpression _ e nm => [e; nm]
  | CallExpression _ e targs args =>
      e :: from_option elements [] targs ++ elements args
  | NewExpression _ e targs args =>
      e :: from_option elements [] targs ++ from_option elements [] args
  | ObjectLiteralExpression _ props => elements props
  | SpreadElement _ e => [e]
  | ConditionalExpression _ c q t col f => [c; q; t; col; f]
  | BinaryExpression _ l op r => [l; op; r]
  | OtherNode _ _ _ cs => cs
  end.

(** A node and all its descendants in depth-first pre-order, each paired
    with its parent. *)
Fixpoint preorder (parent node : Node) {struct node} : list (Node * Node) :=
  (parent, node) ::
  match node with
  | Identifier _ _ => []
  | PropertyAccessExpression _ e nm => preorder node e ++ preorder node nm
  | CallExpression _ e targs args =>
      preorder node e ++
      match targs with
      | Some a => flat_map (preorder node) (elements a)
      | None => []
      end ++
      flat_map (preorder node) (elements args)
  | NewExpression _ e targs args =>
      preorder node e ++
      match targs with
      | Some a => flat_map (preorder node) (elements a)
      | None => []
      end ++
      match args with
      | Some a => flat_map (preorder node) (elements a)
      | None => []
      end
  | ObjectLiteralExpression _ props => flat_map (preorder node) (elements props)
  | SpreadElement _ e => preorder node e
  | ConditionalExpression _ c q t col f =>
      preorder node c ++ preorder node q ++ preorder node t ++
      preorder node col ++ preorder node f
  | BinaryExpression _ l op r =>
      preorder node l ++ preorder node op ++ preorder node r
  | OtherNode _ _ _ cs => flat_map (preorder node) cs
  end.

(** Every node below the root, in document order. *)
Definition descendants (root : Node) : list (Node * Node) :=
  flat_map (preorder root) (children root).

(** ** The walk: failures as state, a [TypeError] as [None] *)

Section Traversal.
Context {St T : Type}.

Definition Walk (A : Type) : Type := St -> option (A * St).

(** [visitNode(cbNode, node)] of [ts.forEachChild] *)
Definition visitNode (cbNode : Node -> Walk (option T)) (n : Node) : Walk (option T) :=
  cbNode n.

(** [a || b] on results: [b] runs only when [a] answered a falsy value. *)
Definition orElse (a b : Walk (option T)) : Walk (option T) :=
  fun s =>
    match a s with
    | None => None
    | Some (Some v, s') => Some (Some v, s')
    | Some (None, s') => b s'
    end.

Definition nothing : Walk (option T) := fun s => Some (None, s).

Section VisitNodes.
Variable cbNode : Node -> Walk (option T).

(** [visitNodes(cbNode, nodes)]: the callback on each element in order,
    stopping at the first truthy answer. *)
Fixpoint visitEach (nodes : list Node) : Walk (option T) :=
  match nodes with
  | [] => nothing
  | n :: rest => orElse (cbNode n) (visitEach rest)
  end.

Definition visitNodes (nodes : option (NodeArray Node)) : Walk (option T) :=
  match nodes with
  | None => nothing
  | Some arr => visitEach (elements arr)
  end.
End VisitNodes.

(** [ts.forEachChild(node, cbNode)] *)
Definition forEachChild (node : Node) (cbNode : Node -> Walk (option T)) : Walk (option T) :=
  match node with
  | Identifier _ _ => nothing
  | PropertyAccessExpression _ e n =>
      orElse (visitNode cbNode e) (visitNode cbNode n)
  | CallExpression _ e targs args =>
      orElse (visitNode cbNode e)
        (orElse (visitNodes cbNode targs) (visitNodes cbNode (Some args)))
  | NewExpression _ e targs args =>
      orElse (visitNode cbNode e)
        (orElse (visitNodes cbNode targs) (visitNodes cbNode args))
  | ObjectLiteralExpression _ props => visitNodes cbNode (Some props)
  | SpreadElement _ e => visitNode cbNode e
  | ConditionalExpression _ c q t col f =>
      orElse (visitNode cbNode c)
        (orElse (visitNode cbNode q)
           (orElse (visitNode cbNode t)
              (orElse (visitNode cbNode col) (visitNode cbNode f))))
  | BinaryExpression _ l op r =>
      orElse (visitNode cbNode l)
        (orElse (visitNode cbNode op) (visitNode cbNode r))
  | OtherNode _ _ _ cs => visitEach cbNode cs
  end.
End Traversal.

(** ** Replacements and failures *)

(** Modelled from the spec: [Lint.Replacement] (the class is not among the
    sources).  A ReplacementOp is an edit over the original text: replace a
    range by a text, insert a text at an offset (a zero-length replace), or
    delete a range.  The rule builds it with [new Lint.Replacement(start,
    length, text)] and the four static helpers below. *)
Record Replacement : Set := mkReplacement {
  r_start : Z;
  r_length : Z;
  r_text : string
}.

Definition r_end (r : Replacement) : Z := r_start r + r_length r.

Definition replaceFromTo (start_ end' : Z) (text : string) : Replacement :=
  mkReplacement start_ (end' - start_) text.
Definition deleteText (start_ length_ : Z) : Replacement :=
  mkReplacement start_ length_ EmptyString.
Definition deleteFromTo (start_ end' : Z) : Replacement :=
  mkReplacement start_ (end' - start_) EmptyString.
Definition appendText (start_ : Z) (text : string) : Replacement :=
  mkReplacement start_ 0 text.

(** [Lint.Fix] *)
Definition Fix : Set := list Replacement.

(** Modelled from the spec: [Lint.RuleFailure] as the rule's walker builds
    it (the class is not among the sources).  A Failure is the node it is
    anchored at, one of the two messages, and an optional Fix. *)
Record RuleFailure : Type := mkFailure {
  failure_node : Node;
  failure : string;
  fix_of : option Fix
}.

Definition FAILURE_STRING : string := "Use the object spread operator instead.".
Definition ASSIGNMENT_FAILURE_STRING : string :=
  "'Object.assign' returns the first argument. Prefer object spread if you want a new object.".

(** Modelled from the spec: [ctx.addFailureAtNode(node, failure, fix)] of
    [Lint.WalkContext] appends one failure anchored at the node. *)
Definition addFailureAtNode (node : Node) (msg : string) (fix_ : Fix)
  : Walk (St:=list RuleFailure) unit :=
  fun failures => Some (tt, failures ++ [mkFailure node msg (Some fix_)]).

(** ** The rule *)

Definition needsParens (node : Node) : bool :=
  match kind node with
  | SyntaxKind.ConditionalExpression
  | SyntaxKind.BinaryExpression => true
  | _ => false
  end.

(** [array.indexOf(x)]: the first index holding the very object [x], or -1. *)
Fixpoint indexOf_from (l : list Node) (x : Node) (i : Z) : Z :=
  match l with
  | [] => -1
  | y :: rest => if same_node y x then i else indexOf_from rest x (i + 1)
  end.
Definition indexOf (l : list Node) (x : Node) : Z := indexOf_from l x 0.

(** [isReturnValueUsed(node)]; [parent] is [node.parent], which the walker
    knows as the node whose children it is visiting. *)
Definition isReturnValueUsed (parent node : Node) : bool :=
  match kind parent with
  | SyntaxKind.VariableDeclaration
  | SyntaxKind.PropertyAssignment
  | SyntaxKind.PropertyDeclaration
  | SyntaxKind.ReturnStatement
  | SyntaxKind.BindingElement
  | SyntaxKind.ArrayLiteralExpression => true
  | SyntaxKind.BinaryExpression =>
      match operatorToken_of parent with
      | Some operatorToken =>
          SyntaxKind.eqb (kind operatorToken) SyntaxKind.EqualsToken
      | None => false
      end
  | SyntaxKind.NewExpression
  | SyntaxKind.CallExpression =>
      match arguments_of parent with
      | Some args => negb (indexOf (elements args) node =? -1)
      | None => false
      end
  | _ => false
  end.

(** What iteration [i] of the loop of [createFix] pushes onto the fix;
    [None] where the source would read a property of [undefined]. *)
Definition fixArgument (args : NodeArray Node) (i : nat) : option (list Replacement) :=
  arg ← elements args !! i;
  match arg with
  | ObjectLiteralExpression _ properties =>
      if (Z.of_nat (length (elements properties)) =? 0) then
        end' ←
          (if negb (Z.of_nat i =? Z.of_nat (length (elements args)) - 1) then
             next ← elements args !! (i + 1)%nat; Some (getStart next)
           else if decide (hasTrailingComma args = Some true) then
             Some (array_end args)
           else Some (node_end arg));
        Some [deleteFromTo (getStart arg) end']
      else
        last ← elements properties !! (length (elements properties) - 1)%nat;
        Some [deleteText (getStart arg) 1;
              deleteFromTo (node_end last) (node_end arg)]
  | _ =>
      let parens := needsParens arg in
      Some (appendText (getStart arg) (if parens then "...(" else "...")
              :: (if parens then [appendText (node_end arg) ")"] else []))
  end.

(** The [for] loop of [createFix]: one [fixArgument] per index, in order. *)
Fixpoint fixArguments (args : NodeArray Node) (indices : list nat) (fix_ : Fix)
  : option Fix :=
  match indices with
  | [] => Some fix_
  | i :: rest =>
      pushed ← fixArgument args i;
      fixArguments args rest (fix_ ++ pushed)
  end.

(** What the iterations of the loop push, iteration by iteration. *)
Definition pushedByLoop (args : NodeArray Node) : option (list (list Replacement)) :=
  mapM (fixArgument args) (seq 0 (length (elements args))).

(** The two ops [createFix] starts the fix with. *)
Definition fixHeader (node arg0 : Node) : list Replacement :=
  [ replaceFromTo (getStart node) (getStart arg0) "{";
    mkReplacement (node_end node - 1) 1 "}" ].

Definition createFix (node : Node) : option Fix :=
  args ← arguments_of node;
  arg0 ← elements args !! 0%nat;
  let fix_ := fixHeader node arg0 in
  fixArguments args (seq 0 (length (elements args))) fix_.

(** tsutils' [SideEffectOptions] *)
Inductive SideEffectOptions : Set :=
| SideEffectNone | TaggedTemplate | Constructor | JsxElement.

(** The test of the outer [if] of [cb]. *)
Definition isObjectAssignCall (node : Node) : bool :=
  match node with
  | CallExpression _ expression _ arguments =>
      negb (Z.of_nat (length (elements arguments)) =? 0) &&
      match expression with
      | PropertyAccessExpression _ object name =>
          text_is name "assign" &&
          isIdentifier object &&
          text_is object "Object"
      | _ => false
      end &&
      negb (existsb isSpreadElement (elements arguments))
  | _ => false
  end.

Section Rule.
(** tsutils' [hasSideEffects(node, options)], an oracle to the rule. *)
Variable hasSideEffects : Node -> SideEffectOptions -> bool.

(** The body of [cb] before it descends: at most one failure added. *)
Definition report (parent node : Node) : Walk (St:=list RuleFailure) unit :=
  fun failures =>
    if isObjectAssignCall node then
      args ← arguments_of node;
      arg0 ← elements args !! 0%nat;
      if SyntaxKind.eqb (kind arg0) SyntaxKind.ObjectLiteralExpression then
        fix_ ← createFix node;
        addFailureAtNode node FAILURE_STRING fix_ failures
      else if isReturnValueUsed parent node &&
              negb (hasSideEffects arg0 Constructor) then
        fix_ ← createFix node;
        addFailureAtNode node ASSIGNMENT_FAILURE_STRING fix_ failures
      else Some (tt, failures)
    else Some (tt, failures).

(** The failures [report] adds to a context. *)
Definition reported (parent node : Node) : list RuleFailure :=
  match report parent node [] with
  | Some (_, added) => added
  | None => []
  end.

(** The failures one visited node contributes; the pair is the node's
    parent and the node. *)
Definition reportedAt (pn : Node * Node) : list RuleFailure :=
  reported (fst pn) (snd pn).

(** [cb(node)], the callback handed to [ts.forEachChild]; it answers what
    the [forEachChild] over its own children answers. *)
Fixpoint cb (parent node : Node) : Walk (St:=list RuleFailure) (option unit) :=
  fun failures =>
    match report parent node failures with
    | None => None
    | Some (_, failures') => forEachChild node (cb node) failures'
    end.

(** [walk(ctx)] *)
Definition walk (sourceFile : Node) : Walk (St:=list RuleFailure) (option unit) :=
  forEachChild sourceFile (cb sourceFile).

(** [Rule.apply(sourceFile)]: the failures the walk leaves in a fresh
    context. *)
Definition apply (sourceFile : Node) : option (list RuleFailure) :=
  snd <$> walk sourceFile [].
End Rule.

(** ** Applying a fix *)

(** Modelled from the spec: the fix applier ([Lint.Replacement.applyAll] is
    not among the sources).  The ops refer to offsets of the original text
    and are applied as one simultaneous patch, left to right by offset; ops
    that overlap are rejected.  An insertion at an offset comes before a
    range that starts there and after a range that ends there. *)
Definition before (a b : Replacement) : bool :=
  (r_start a <? r_start b) ||
  ((r_start a =? r_start b) && (r_end a <=? r_end b)).

Fixpoint insertOp (r : Replacement) (sorted : list Replacement) : list Replacement :=
  match sorted with
  | [] => [r]
  | x :: rest => if before r x then r :: x :: rest else x :: insertOp r rest
  end.

Definition byOffset (fix_ : Fix) : list Replacement :=
  foldr insertOp [] fix_.

(** [content.substring(from, to)] for [0 <= from] *)
Definition slice (content : string) (from to : Z) : string :=
  substring (Z.to_nat from) (Z.to_nat (to - from)) content.

Definition rest_from (content : string) (from : Z) : string :=
  substring (Z.to_nat from) (String.length content - Z.to_nat from) content.

Fixpoint splice (content : string) (cursor : Z) (ops : list Replacement) : option string :=
  match ops with
  | [] => Some (rest_from content cursor)
  | r :: rest =>
      if (r_start r <? cursor) || (r_length r <? 0) then None
      else
        tail ← splice content (r_end r) rest;
        Some (slice content cursor (r_start r) ++ r_text r ++ tail)%string
  end.

Definition applyAll (content : string) (fix_ : Fix) : option string :=
  splice content 0 (byOffset fix_).

(** The source text once the fix of a call is applied to it. *)
Definition fixedText (text : string) (call : Node) : option string :=
  fix_ ← createFix call; applyAll text fix_.

(** The text a node spans. *)
Definition nodeText (text : string) (n : Node) : string :=
  slice text (getStart n) (node_end n).

(** ** The vocabulary of the statements *)

(** The shape the rule looks for, in words: a call with at least one
    argument and no spread argument whose callee is [Object.assign]. *)
Definition ObjectAssignShape (node : Node) : Prop :=
  exists i ip io iname targs args,
    node = CallExpression i
             (PropertyAccessExpression ip (Identifier io "Object")
                (Identifier iname "assign"))
             targs args /\
    elements args <> [] /\
    forall a, a ∈ elements args -> kind a <> SyntaxKind.SpreadElement.

(** Two ranges overlap when they share a character of the text, or when an
    insertion point lies strictly inside the other range. *)
Definition overlap (a b : Replacement) : Prop :=
  r_start a < r_end b /\ r_start b < r_end a.

Definition NonOverlapping (fix_ : Fix) : Prop :=
  forall i j a b,
    i <> j -> fix_ !! i = Some a -> fix_ !! j = Some b -> ~ overlap a b.

(** Offsets as a parser leaves them on a call: the call starts no later
    than its first argument; every argument starts no later than it ends
    and ends no later than the next one starts; the last one ends no later
    than the argument list, which ends before the closing parenthesis; and
    the last property of an object literal ends after the opening brace and
    no later than the literal. *)
Definition argumentSpan (arg : Node) : Prop :=
  getStart arg <= node_end arg /\
  match arg with
  | ObjectLiteralExpression inf props =>
      forall p, last (elements props) = Some p ->
        start inf + 1 <= node_end p <= end_ inf
  | _ => True
  end.

Fixpoint argumentsInOrder (args : list Node) (hi : Z) : Prop :=
  match args with
  | [] => True
  | arg :: rest =>
      argumentSpan arg /\
      node_end arg <= match rest with next :: _ => getStart next | [] => hi end /\
      argumentsInOrder rest hi
  end.

Definition PositionsInOrder (node : Node) : Prop :=
  match arguments_of node with
  | Some args =>
      match elements args with
      | arg0 :: _ =>
          0 <= getStart node <= getStart arg0 /\
          argumentsInOrder (elements args) (array_end args) /\
          array_end args <= node_end node - 1
      | [] => True
      end
  | None => True
  end.

(** The text the fix leaves of the arguments of a call, from a cursor on:
    the original text up to the next argument, then what becomes of the
    argument.  An object literal without properties vanishes together with
    the text up to the next argument (or up to the end of the argument list
    when it is last and a trailing comma follows); one with properties
    leaves the text of its properties, from after its opening brace to the
    end of the last one; any other argument leaves the spread marker and
    its own text, in parentheses when [needsParens] says so.  After the
    last argument comes the original text up to [hi], the offset of the
    closing parenthesis. *)
Fixpoint rendered (text : string) (args : NodeArray Node) (hi : Z)
    (cursor : Z) (rest : list Node) : string :=
  match rest with
  | [] => slice text cursor hi
  | arg :: rest' =>
      (slice text cursor (getStart arg) ++
       match arg with
       | ObjectLiteralExpression inf props =>
           match last (elements props) with
           | None =>
               rendered text args hi
                 (match rest' with
                  | next :: _ => getStart next
                  | [] =>
                      if decide (hasTrailingComma args = Some true)
                      then array_end args else end_ inf
                  end) rest'
           | Some p =>
               slice text (start inf + 1) (node_end p) ++
               rendered text args hi (end_ inf) rest'
           end
       | _ =>
           if needsParens arg then
             "...(" ++ nodeText text arg ++ ")" ++
             rendered text args hi (node_end arg) rest'
           else "..." ++ rendered text args hi (getStart arg) rest'
       end)%string
  end.

(** Ops laid out left to right between two offsets, each starting no
    earlier than the one before it ends. *)
Fixpoint chain (lo : Z) (ops : list Replacement) (hi : Z) : Prop :=
  match ops with
  | [] => lo <= hi
  | r :: rest => lo <= r_start r /\ 0 <= r_length r /\ chain (r_end r) rest hi
  end.

Fixpoint Disjoint (ops : list Replacement) : Prop :=
  match ops with
  | [] => True
  | a :: rest => Forall (fun b => ~ overlap a b) rest /\ Disjoint rest
  end.

(** ** The vocabulary of the further properties *)

(** tsutils' [isObjectLiteralExpression], the guard of the loop of
    [createFix]: a test of [node.kind]. *)
Definition isObjectLiteralExpression (n : Node) : bool :=
  SyntaxKind.eqb (kind n) SyntaxKind.ObjectLiteralExpression.

(** [arg.properties.length !== 0] on an object literal; [false] on every
    other node. *)
Definition hasProperties (n : Node) : bool :=
  match n with
  | ObjectLiteralExpression _ properties =>
      negb (Z.of_nat (length (elements properties)) =? 0)
  | _ => false
  end.

(** The texts of the ops one iteration of the loop of [createFix] pushes
    for an argument, in the order it pushes them: the empty text of a
    deletion once for an object literal without properties and twice for
    one with properties, the spread marker for any other argument, with
    its parentheses when [needsParens] says so. *)
Definition pushedTexts (arg : Node) : list string :=
  if isObjectLiteralExpression arg then
    if hasProperties arg then [EmptyString; EmptyString] else [EmptyString]
  else if needsParens arg then ["...("; ")"] else ["..."].

(** How many ops of a fix carry a given text. *)
Definition insertions (s : string) (fix_ : Fix) : nat :=
  length (List.filter (String.eqb s) (map r_text fix_)).

(** An op that lies within the span of a node. *)
Definition within (node : Node) (r : Replacement) : Prop :=
  getStart node <= r_start r /\ 0 <= r_length r /\ r_end r <= node_end node.

(** A node that lies in the part of an argument the fix of the call keeps:
    between the opening brace and the end of the last property of an object
    literal, anywhere in the span of an argument of another kind.  An
    object literal without properties holds no node. *)
Definition insideArgument (arg n : Node) : Prop :=
  match arg with
  | ObjectLiteralExpression inf props =>
      exists p, last (elements props) = Some p /\
        start inf + 1 <= getStart n /\ node_end n <= node_end p
  | _ => getStart arg <= getStart n /\ node_end n <= node_end arg
  end.

(** The visited node of a parent and node pair passes the test of the
    outer [if] of [cb]. *)
Definition matchedCall (pn : Node * Node) : bool := isObjectAssignCall (snd pn).

(** ** The JSON formatter *)

Module JsonFormatter.
(** The values [JSON.stringify] is given: what [toJson] builds. *)
#[warnings="-register-all"]
Inductive JSON : Type :=
| JNull
| JBool (b : bool)
| JNumber (z : Z)
| JString (s : string)
| JArray (items : list JSON)
| JObject (members : list (string * JSON)).

Definition dquote : ascii := "034"%char.
Definition backslash : ascii := "092"%char.

Definition hexDigit (n : nat) : ascii :=
  match n with
  | 0 => "0" | 1 => "1" | 2 => "2" | 3 => "3" | 4 => "4" | 5 => "5"
  | 6 => "6" | 7 => "7" | 8 => "8" | 9 => "9" | 10 => "a" | 11 => "b"
  | 12 => "c" | 13 => "d" | 14 => "e" | _ => "f"
  end%nat%char.

(** One character inside a JSON string literal. *)
Definition escape (c : ascii) : string :=
  let n := nat_of_ascii c in
  if Ascii.eqb c dquote then String backslash (String dquote EmptyString)
  else if Ascii.eqb c backslash then String backslash (String backslash EmptyString)
  else if (n =? 8)%nat then String backslash "b"
  else if (n =? 9)%nat then String backslash "t"
  else if (n =? 10)%nat then String backslash "n"
  else if (n =? 12)%nat then String backslash "f"
  else if (n =? 13)%nat then String backslash "r"
  else if (n <? 32)%nat then
    String backslash
      ("u00" ++ String (hexDigit (n / 16)) (String (hexDigit (n mod 16)) EmptyString))
  else String c EmptyString.

Fixpoint escaped (s : string) : string :=
  match s with
  | EmptyString => EmptyString
  | String c rest => (escape c ++ escaped rest)%string
  end.

Definition quoted (s : string) : string :=
  String dquote (escaped s ++ String dquote EmptyString).

Definition decimal (z : Z) : string :=
  DecimalString.NilZero.string_of_int (Z.to_int z).

(** [JSON.stringify(value)] with no indent argument. *)
Fixpoint stringify (v : JSON) : string :=
  match v with
  | JNull => "null"
  | JBool true => "true"
  | JBool false => "false"
  | JNumber z => decimal z
  | JString s => quoted s
  | JArray items =>
      ("[" ++ String.concat "," (map stringify items) ++ "]")%string
  | JObject members =>
      ("{" ++
       String.concat ","
         (map (fun m => (quoted (fst m) ++ ":" ++ stringify (snd m))%string)
            members) ++
       "}")%string
  end.

Section Format.
Variable RuleFailure : Type.
(** [failure.toJson()] *)
Variable toJson : RuleFailure -> JSON.

(** The loop of [format]: [failuresJSON.push(failure.toJson())] for
    each failure in turn. *)
Definition pushAll (failures : list RuleFailure) (failuresJSON : list JSON)
  : list JSON :=
  fold_left (fun acc failure => acc ++ [toJson failure]) failures failuresJSON.

(** [JsonFormatter.format(failures)] *)
Definition format (failures : list RuleFailure) : string :=
  let failuresJSON := pushAll failures [] in
  stringify (JArray failuresJSON).
End Format.
End JsonFormatter.

(** ** Sample programs *)

Module Samples.
Definition ident (r : nat) (s e : Z) (t : string) : Node :=
  Identifier (mkInfo r s e) t.

Definition plain (k : SyntaxKind.t) (u : SyntaxKind.shaped k = false)
    (r : nat) (s e : Z) (cs : list Node) : Node :=
  OtherNode (mkInfo r s e) k u cs.

(** [Object.assign] written at offset [s] *)
Definition objectAssign (r : nat) (s : Z) : Node :=
  PropertyAccessExpression (mkInfo r s (s + 13))
    (ident (r + 1) s (s + 6) "Object")
    (ident (r + 2) (s + 7) (s + 13) "assign").

Definition NumericLiteral := SyntaxKind.Other 8.

(** [name: 1] at offset [s], a one-letter name *)
Definition prop1 (r : nat) (s : Z) (name : string) : Node :=
  plain SyntaxKind.PropertyAssignment eq_refl r s (s + 4)
    [ident (r + 1) s (s + 1) name;
     plain NumericLiteral eq_refl (r + 2) (s + 3) (s + 4) []].

Definition statement (r : nat) (s e : Z) (expr : Node) : Node :=
  plain SyntaxKind.ExpressionStatement eq_refl r s e [expr].

Definition sourceFile (e : Z) (statements : list Node) : Node :=
  plain SyntaxKind.SourceFile eq_refl 0 0 e statements.

(** [Object.assign({}, {a: 1}, b)] *)
Definition text1 : string := "Object.assign({}, {a: 1}, b)".
Definition args1 : NodeArray Node :=
  mkArray
    [ObjectLiteralExpression (mkInfo 6 14 16) (mkArray [] 15 None);
     ObjectLiteralExpression (mkInfo 7 18 24)
       (mkArray [prop1 8 19 "a"] 23 None);
     ident 11 26 27 "b"]
    27 None.
Definition call1 : Node :=
  CallExpression (mkInfo 2 0 28) (objectAssign 3 0) None args1.
Definition statement1 : Node := statement 1 0 28 call1.
Definition file1 : Node := sourceFile 28 [statement1].
(** [Object.assign(cond ? a : b, c)] *)
Definition text2 : string := "Object.assign(cond ? a : b, c)".
Definition cond2 : Node :=
  ConditionalExpression (mkInfo 6 14 26)
    (ident 7 14 18 "cond")
    (plain SyntaxKind.QuestionToken eq_refl 8 19 20 [])
    (ident 9 21 22 "a")
    (plain SyntaxKind.ColonToken eq_refl 10 23 24 [])
    (ident 11 25 26 "b").
Definition args2 : NodeArray Node :=
  mkArray [cond2; ident 12 28 29 "c"] 29 None.
Definition call2 : Node :=
  CallExpression (mkInfo 2 0 30) (objectAssign 3 0) None args2.
Definition file2 : Node := sourceFile 30 [statement 1 0 30 call2].

(** [Object.assign({a: 1}, b, {})] *)
Definition text3 : string := "Object.assign({a: 1}, b, {})".
Definition call3 : Node :=
  CallExpression (mkInfo 2 0 28) (objectAssign 3 0) None
    (mkArray
       [ObjectLiteralExpression (mkInfo 6 14 20)
          (mkArray [prop1 7 15 "a"] 19 None);
        ident 10 22 23 "b";
        ObjectLiteralExpression (mkInfo 11 25 27) (mkArray [] 26 None)]
       27 None).
Definition file3 : Node := sourceFile 28 [statement 1 0 28 call3].

(** [Object.assign(Object.assign({}, a), b)] *)
Definition text4 : string := "Object.assign(Object.assign({}, a), b)".
Definition inner4 : Node :=
  CallExpression (mkInfo 6 14 34) (objectAssign 7 14) None
    (mkArray
       [ObjectLiteralExpression (mkInfo 10 28 30) (mkArray [] 29 None);
        ident 11 32 33 "a"]
       33 None).
Definition call4 : Node :=
  CallExpression (mkInfo 2 0 38) (objectAssign 3 0) None
    (mkArray [inner4; ident 12 36 37 "b"] 37 None).
Definition statement4 : Node := statement 1 0 38 call4.
Definition file4 : Node := sourceFile 38 [statement4].

(** [Object.assign({}, Object.assign({}, a), b)] *)
Definition text5 : string := "Object.assign({}, Object.assign({}, a), b)".
Definition inner5 : Node :=
  CallExpression (mkInfo 7 18 38) (objectAssign 8 18) None
    (mkArray
       [ObjectLiteralExpression (mkInfo 11 32 34) (mkArray [] 33 None);
        ident 12 36 37 "a"]
       37 None).
Definition call5 : Node :=
  CallExpression (mkInfo 2 0 42) (objectAssign 3 0) None
    (mkArray
       [ObjectLiteralExpression (mkInfo 6 14 16) (mkArray [] 15 None);
        inner5; ident 13 40 41 "b"]
       41 None).
Definition statement5 : Node := statement 1 0 42 call5.
Definition file5 : Node := sourceFile 42 [statement5].

(** [Object.assign(a, b)(x)] *)
Definition text6 : string := "Object.assign(a, b)(x)".
Definition inner6 : Node :=
  CallExpression (mkInfo 3 0 19) (objectAssign 4 0) None
    (mkArray [ident 7 14 15 "a"; ident 8 17 18 "b"] 18 None).
Definition call6 : Node :=
  CallExpression (mkInfo 2 0 22) inner6 None
    (mkArray [ident 9 20 21 "x"] 21 None).
Definition file6 : Node := sourceFile 22 [statement 1 0 22 call6].

(** [Object.assign(a, b) = c] *)
Definition text7 : string := "Object.assign(a, b) = c".
Definition left7 : Node :=
  CallExpression (mkInfo 3 0 19) (objectAssign 4 0) None
    (mkArray [ident 7 14 15 "a"; ident 8 17 18 "b"] 18 None).
Definition right7 : Node := ident 10 22 23 "c".
Definition assign7 : Node :=
  BinaryExpression (mkInfo 2 0 23) left7
    (plain SyntaxKind.EqualsToken eq_refl 9 20 21 []) right7.
Definition file7 : Node := sourceFile 23 [statement 1 0 23 assign7].

(** [const x = Object.assign(y, z)] *)
Definition text8 : string := "const x = Object.assign(y, z)".
Definition y8 : Node := ident 9 24 25 "y".
Definition call8 : Node :=
  CallExpression (mkInfo 5 10 29) (objectAssign 6 10) None
    (mkArray [y8; ident 10 27 28 "z"] 28 None).
Definition declaration8 : Node :=
  plain SyntaxKind.VariableDeclaration eq_refl 3 6 29 [ident 4 6 7 "x"; call8].
Definition file8 : Node :=
  sourceFile 29
    [plain SyntaxKind.VariableStatement eq_refl 1 0 29
       [plain SyntaxKind.VariableDeclarationList eq_refl 2 0 29 [declaration8]]].

(** [Object.assign(y, z);] *)
Definition text9 : string := "Object.assign(y, z);".
Definition call9 : Node :=
  CallExpression (mkInfo 2 0 19) (objectAssign 3 0) None
    (mkArray [ident 6 14 15 "y"; ident 7 17 18 "z"] 18 None).
Definition file9 : Node := sourceFile 20 [statement 1 0 20 call9].
End Samples.

(** * Part II: the properties *)

(** ** Kinds and the tree *)

Lemma kind_eqb_eq (a b : SyntaxKind.t) : SyntaxKind.eqb a b = true <-> a = b.
Proof. unfold SyntaxKind.eqb. destruct (SyntaxKind.eq_dec a b); split; congruence. Qed.

Lemma kind_eqb_neq (a b : SyntaxKind.t) : SyntaxKind.eqb a b = false <-> a <> b.
Proof. unfold SyntaxKind.eqb. destruct (SyntaxKind.eq_dec a b); split; congruence. Qed.

Lemma preorder_children parent node :
  preorder parent node = (parent, node) :: flat_map (preorder node) (children node).
Proof.
  destruct node as [ | | ? ? [ta|] ? | ? ? [ta|] [a|] | | | | | ]; simpl;
    rewrite ?flat_map_app, ?app_nil_r; simpl; rewrite ?app_nil_r; reflexivity.
Qed.

(** Induction over the tree through [children]. *)
Lemma Node_children_ind (P : Node -> Prop) :
  (forall n, Forall P (children n) -> P n) -> forall n, P n.
Proof.
  intros step. fix IH 1. intros n. apply step.
  destruct n as [ | ? e nm | ? e targs args | ? e targs args | ? props | ? e
                | ? c q t col f | ? l op r | ? ? ? cs ]; simpl.
  - constructor.
  - repeat constructor; apply IH.
  - constructor; [apply IH|]. apply Forall_app. split.
    + destruct targs as [[l ? ?]|]; simpl; [|constructor].
      induction l; constructor; [apply IH | assumption].
    + destruct args as [l ? ?]; simpl.
      induction l; constructor; [apply IH | assumption].
  - constructor; [apply IH|]. apply Forall_app. split.
    + destruct targs as [[l ? ?]|]; simpl; [|constructor].
      induction l; constructor; [apply IH | assumption].
    + destruct args as [[l ? ?]|]; simpl; [|constructor].
      induction l; constructor; [apply IH | assumption].
  - destruct props as [l ? ?]; simpl.
    induction l; constructor; [apply IH | assumption].
  - repeat constructor; apply IH.
  - repeat constructor; apply IH.
  - repeat constructor; apply IH.
  - induction cs; constructor; [apply IH | assumption].
Qed.

(** ** The traversal never stops early *)

Section TraversalFacts.
Context {St T : Type}.
Implicit Types (cbNode : Node -> Walk (St:=St) (option T)) (s : St).

Lemma orElse_ext (a b b' : Walk (St:=St) (option T)) s :
  (forall s', b s' = b' s') -> orElse a b s = orElse a b' s.
Proof. intros H. unfold orElse. destruct (a s) as [[[v|] s']|]; auto. Qed.

Lemma orElse_nothing_r (a : Walk (St:=St) (option T)) s :
  orElse a nothing s = a s.
Proof. unfold orElse, nothing. destruct (a s) as [[[v|] s']|]; reflexivity. Qed.

Lemma visitEach_app cbNode (l1 l2 : list Node) s :
  visitEach cbNode (l1 ++ l2) s =
  orElse (visitEach cbNode l1) (visitEach cbNode l2) s.
Proof.
  revert s. induction l1 as [|n l1 IH]; intros s; simpl; [reflexivity|].
  unfold orElse. destruct (cbNode n s) as [[[v|] s']|]; try reflexivity.
  rewrite IH. reflexivity.
Qed.

Lemma forEachChild_children (node : Node) cbNode s :
  forEachChild node cbNode s = visitEach cbNode (children node) s.
Proof.
  destruct node as [ | | ? e targs args | ? e targs args | | | | | ]; simpl;
    unfold visitNode, visitNodes;
    repeat (apply orElse_ext; intros);
    rewrite ?orElse_nothing_r; try reflexivity.
  - rewrite visitEach_app. destruct targs; reflexivity.
  - rewrite visitEach_app. destruct targs, args; reflexivity.
Qed.

End TraversalFacts.

(** When the callback only ever answers a falsy value and appends to the
    state, so does the visit of a whole list, element after element. *)
Lemma visitEach_appends {T F : Type} (cb_ : Node -> Walk (St:=list F) (option T))
    (added : Node -> list F) (l : list Node) :
  Forall (fun n => forall st, cb_ n st = Some (None, st ++ added n)) l ->
  forall st, visitEach cb_ l st = Some (None, st ++ flat_map added l).
Proof.
  induction 1 as [|n l Hn _ IH]; intros st; simpl.
  - unfold nothing. rewrite app_nil_r. reflexivity.
  - unfold orElse. rewrite Hn, IH, app_assoc. reflexivity.
Qed.

Lemma flat_map_flat_map {A B C : Type} (f : B -> list C) (g : A -> list B)
    (l : list A) :
  flat_map f (flat_map g l) = flat_map (fun x => flat_map f (g x)) l.
Proof.
  induction l as [|x l IH]; simpl; [reflexivity|].
  rewrite flat_map_app, IH. reflexivity.
Qed.

(** ** The fix generator, argument by argument *)

Lemma fixArgument_total (args : NodeArray Node) (i : nat) :
  (i < length (elements args))%nat -> is_Some (fixArgument args i).
Proof.
  intros Hi. unfold fixArgument.
  destruct (lookup_lt_is_Some_2 (elements args) i Hi) as [arg ->]. simpl.
  destruct arg as [ | | | | inf props | | | | ]; try (eexists; reflexivity).
  destruct (Z.eqb_spec (Z.of_nat (length (elements props))) 0) as [He|Hne].
  - destruct (Z.eqb_spec (Z.of_nat i) (Z.of_nat (length (elements args)) - 1)) as [|Hlast]; simpl.
    + destruct (decide (hasTrailingComma args = Some true)); eexists; reflexivity.
    + destruct (lookup_lt_is_Some_2 (elements args) (i + 1)) as [next ->]; [lia|].
      eexists; reflexivity.
  - destruct (lookup_lt_is_Some_2 (elements props) (length (elements props) - 1)) as [last ->];
      [lia|]. eexists; reflexivity.
Qed.

Lemma fixArguments_mapM (args : NodeArray Node) (indices : list nat) (fix_ : Fix) :
  fixArguments args indices fix_ =
  (fun pieces => fix_ ++ concat pieces) <$> mapM (fixArgument args) indices.
Proof.
  revert fix_. induction indices as [|i rest IH]; intros fix_; simpl.
  - rewrite app_nil_r. reflexivity.
  - destruct (fixArgument args i) as [pushed|]; simpl; [|reflexivity].
    rewrite IH. destruct (mapM (fixArgument args) rest); simpl; [|reflexivity].
    rewrite app_assoc. reflexivity.
Qed.

Lemma createFix_pieces (node : Node) (args : NodeArray Node) (arg0 : Node) :
  arguments_of node = Some args ->
  elements args !! 0%nat = Some arg0 ->
  exists pieces : list (list Replacement),
    pushedByLoop args = Some pieces /\
    createFix node = Some (fixHeader node arg0 ++ concat pieces) /\
    length pieces = length (elements args) /\
    forall i, (i < length (elements args))%nat ->
      fixArgument args i = pieces !! i.
Proof.
  intros Hargs H0. unfold createFix, pushedByLoop. rewrite Hargs. simpl.
  rewrite H0. simpl. rewrite fixArguments_mapM.
  destruct (mapM (fixArgument args) (seq 0 (length (elements args)))) as [pieces|] eqn:Hm.
  - apply mapM_Some in Hm. exists pieces. split; [reflexivity|]. split; [reflexivity|].
    pose proof (Forall2_length _ _ _ Hm) as Hlen. rewrite length_seq in Hlen.
    split; [symmetry; exact Hlen|].
    intros i Hi.
    destruct (lookup_lt_is_Some_2 pieces i) as [p Hp]; [lia|].
    rewrite Hp.
    eapply (Forall2_lookup_lr _ _ _ i i p) in Hm; [exact Hm| |exact Hp].
    rewrite lookup_seq. split; [reflexivity|lia].
  - exfalso. apply mapM_None in Hm.
    apply Exists_exists in Hm as [i [Hin Hnone]].
    apply elem_of_seq in Hin.
    destruct (fixArgument_total args i) as [? Hs]; [lia|]. congruence.
Qed.

Lemma createFix_total (node : Node) (args : NodeArray Node) :
  arguments_of node = Some args ->
  elements args <> [] ->
  is_Some (createFix node).
Proof.
  intros Hargs Hne. destruct (elements args) as [|arg0 rest] eqn:He; [done|].
  destruct (createFix_pieces node args arg0 Hargs) as (pieces & _ & Hfix & _).
  - rewrite He. reflexivity.
  - eexists; exact Hfix.
Qed.

Lemma fixArgument_other (args : NodeArray Node) (i : nat) (arg : Node) :
  elements args !! i = Some arg ->
  kind arg <> SyntaxKind.ObjectLiteralExpression ->
  fixArgument args i =
  Some (appendText (getStart arg) (if needsParens arg then "...(" else "...")
          :: (if needsParens arg then [appendText (node_end arg) ")"] else [])).
Proof.
  intros Hi Hlit. unfold fixArgument. rewrite Hi. simpl.
  destruct arg; try reflexivity. simpl in Hlit. done.
Qed.

(** ** What the rule matches *)

Lemma text_is_spec (n : Node) (s : string) :
  text_is n s = true <-> exists i, n = Identifier i s.
Proof.
  unfold text_is. destruct n; simpl; try (split; [discriminate | intros [? ?]; discriminate]).
  rewrite String.eqb_eq. split.
  - intros ->. eexists; reflexivity.
  - intros [? H]. congruence.
Qed.

Lemma no_spread_spec (l : list Node) :
  existsb isSpreadElement l = false <->
  forall a, a ∈ l -> kind a <> SyntaxKind.SpreadElement.
Proof.
  induction l as [|x l IH]; simpl.
  - split; [intros _ a Ha; inversion Ha | reflexivity].
  - rewrite orb_false_iff, IH. unfold isSpreadElement at 1.
    rewrite kind_eqb_neq. split.
    + intros [Hx Hl] a Ha. apply elem_of_cons in Ha as [->|Ha]; auto.
    + intros H. split; [apply H; left | intros a Ha; apply H; right; exact Ha].
Qed.

Lemma isObjectAssignCall_iff (node : Node) :
  isObjectAssignCall node = true <-> ObjectAssignShape node.
Proof.
  unfold ObjectAssignShape. split.
  - destruct node as [ | | i e targs args | | | | | | ]; simpl; try discriminate.
    rewrite !andb_true_iff, !negb_true_iff, Z.eqb_neq. intros [[Hlen He] Hsp].
    pose proof (proj1 (no_spread_spec _) Hsp) as Hsp'.
    destruct e as [ | ip obj nm | | | | | | | ]; try discriminate.
    rewrite !andb_true_iff in He. destruct He as [[Hnm _] Hobj].
    apply text_is_spec in Hnm as [iname ->]. apply text_is_spec in Hobj as [io ->].
    exists i, ip, io, iname, targs, args. split; [reflexivity|]. split; [|exact Hsp'].
    intros Hnil. rewrite Hnil in Hlen. simpl in Hlen. lia.
  - intros (i & ip & io & iname & targs & args & -> & Hne & Hsp). simpl.
    rewrite (proj2 (no_spread_spec _) Hsp).
    destruct (elements args); [done|]. reflexivity.
Qed.

Lemma shape_arguments (node : Node) :
  ObjectAssignShape node ->
  exists args arg0,
    arguments_of node = Some args /\ elements args !! 0%nat = Some arg0.
Proof.
  intros (i & ip & io & iname & targs & args & -> & Hne & _).
  destruct (elements args) as [|arg0 rest] eqn:He; [done|].
  exists args, arg0. rewrite He. split; reflexivity.
Qed.

(** ** What one visit reports *)

Section RuleFacts.
Variable hasSideEffects : Node -> SideEffectOptions -> bool.

Lemma report_reported (parent node : Node) (failures : list RuleFailure) :
  report hasSideEffects parent node failures =
  Some (tt, failures ++ reported hasSideEffects parent node).
Proof.
  unfold reported, report.
  destruct (isObjectAssignCall node) eqn:Hm; [|rewrite app_nil_r; reflexivity].
  apply isObjectAssignCall_iff in Hm as (i & ip & io & iname & targs & args & -> & Hne & _).
  destruct (createFix_total (CallExpression i (PropertyAccessExpression ip
              (Identifier io "Object") (Identifier iname "assign")) targs args) args)
    as [fix_ Hfix]; [reflexivity|exact Hne|].
  simpl arguments_of. simpl. destruct (elements args) as [|arg0 rest] eqn:He; [done|].
  simpl. rewrite Hfix. simpl.
  destruct (SyntaxKind.eqb (kind arg0) SyntaxKind.ObjectLiteralExpression); [reflexivity|].
  destruct (isReturnValueUsed _ _ && negb _); [reflexivity|].
  rewrite app_nil_r. reflexivity.
Qed.

Lemma reported_unmatched (parent node : Node) :
  isObjectAssignCall node = false -> reported hasSideEffects parent node = [].
Proof. intros H. unfold reported, report. rewrite H. reflexivity. Qed.
End RuleFacts.

Section ReportCases.
Variable hasSideEffects : Node -> SideEffectOptions -> bool.

Lemma reported_matched (parent node : Node) :
  ObjectAssignShape node ->
  exists args arg0 fix_,
    arguments_of node = Some args /\
    elements args !! 0%nat = Some arg0 /\
    createFix node = Some fix_ /\
    reported hasSideEffects parent node =
      if SyntaxKind.eqb (kind arg0) SyntaxKind.ObjectLiteralExpression then
        [mkFailure node FAILURE_STRING (Some fix_)]
      else if isReturnValueUsed parent node &&
              negb (hasSideEffects arg0 Constructor) then
        [mkFailure node ASSIGNMENT_FAILURE_STRING (Some fix_)]
      else [].
Proof.
  intros Hshape. pose proof (proj2 (isObjectAssignCall_iff node) Hshape) as Hm.
  destruct Hshape as (i & ip & io & iname & targs & args & -> & Hne & _).
  set (node := CallExpression _ _ _ _) in *.
  destruct (createFix_total node args) as [fix_ Hfix]; [reflexivity|exact Hne|].
  destruct (elements args) as [|arg0 rest] eqn:He; [done|].
  exists args, arg0, fix_. split; [reflexivity|]. split; [rewrite He; reflexivity|].
  split; [exact Hfix|].
  unfold reported, report. rewrite Hm. simpl arguments_of. simpl. rewrite He. simpl.
  rewrite Hfix. simpl.
  destruct (SyntaxKind.eqb (kind arg0) SyntaxKind.ObjectLiteralExpression); [reflexivity|].
  destruct (isReturnValueUsed _ _ && negb _); reflexivity.
Qed.

Lemma reported_shape (parent node : Node) :
  reported hasSideEffects parent node <> [] -> ObjectAssignShape node.
Proof.
  intros H. apply isObjectAssignCall_iff.
  destruct (isObjectAssignCall node) eqn:Hm; [reflexivity|].
  rewrite reported_unmatched in H by exact Hm. done.
Qed.

Lemma reported_node (parent node : Node) (f : RuleFailure) :
  f ∈ reported hasSideEffects parent node ->
  reported hasSideEffects parent node = [f] /\ failure_node f = node /\
  (failure f = FAILURE_STRING \/ failure f = ASSIGNMENT_FAILURE_STRING) /\
  fix_of f = createFix node.
Proof.
  intros Hf. assert (Hne : reported hasSideEffects parent node <> []).
  { intros E. rewrite E in Hf. inversion Hf. }
  destruct (reported_matched parent node (reported_shape _ _ Hne))
    as (args & arg0 & fix_ & _ & _ & Hfix & Hrep).
  rewrite Hrep in *. rewrite Hfix.
  destruct (SyntaxKind.eqb (kind arg0) SyntaxKind.ObjectLiteralExpression).
  - apply list_elem_of_singleton in Hf as ->. simpl. auto.
  - destruct (isReturnValueUsed _ _ && negb _); [|inversion Hf].
    apply list_elem_of_singleton in Hf as ->. simpl. auto.
Qed.
End ReportCases.

(** ** The whole run *)

Section WalkFacts.
Variable hasSideEffects : Node -> SideEffectOptions -> bool.

Lemma cb_unfold (parent node : Node) (failures : list RuleFailure) :
  cb hasSideEffects parent node failures =
  match report hasSideEffects parent node failures with
  | None => None
  | Some (_, failures') =>
      forEachChild node (cb hasSideEffects node) failures'
  end.
Proof. destruct node; reflexivity. Qed.

Lemma cb_preorder (node : Node) :
  forall parent failures,
    cb hasSideEffects parent node failures =
    Some (None, failures ++ flat_map (reportedAt hasSideEffects) (preorder parent node)).
Proof.
  induction node as [node IH] using Node_children_ind. intros parent failures.
  rewrite cb_unfold, report_reported, forEachChild_children.
  rewrite (visitEach_appends (cb hasSideEffects node)
             (fun n => flat_map (reportedAt hasSideEffects) (preorder node n))).
  - rewrite preorder_children. simpl.
    rewrite flat_map_flat_map, <- app_assoc. reflexivity.
  - eapply Forall_impl; [exact IH|]. simpl. intros n Hn s. apply Hn.
Qed.

Lemma walk_descendants (sourceFile : Node) (failures : list RuleFailure) :
  walk hasSideEffects sourceFile failures =
  Some (None, failures ++ flat_map (reportedAt hasSideEffects) (descendants sourceFile)).
Proof.
  unfold walk, descendants. rewrite forEachChild_children.
  rewrite (visitEach_appends (cb hasSideEffects sourceFile)
             (fun n => flat_map (reportedAt hasSideEffects) (preorder sourceFile n))).
  - rewrite flat_map_flat_map. reflexivity.
  - apply Forall_forall. intros n _ s. apply cb_preorder.
Qed.
End WalkFacts.

Lemma reported_nodes_sublist (hasSideEffects : Node -> SideEffectOptions -> bool)
    (l : list (Node * Node)) :
  sublist (failure_node <$> flat_map (reportedAt hasSideEffects) l) (snd <$> l).
Proof.
  induction l as [|[p n] l IH]; simpl; [constructor|].
  rewrite fmap_app. unfold reportedAt at 1. simpl.
  destruct (reported hasSideEffects p n) as [|f rest] eqn:Hrep; simpl.
  - apply sublist_cons. exact IH.
  - destruct (reported_node hasSideEffects p n f) as (Hone & <- & _).
    { rewrite Hrep. left. }
    rewrite Hrep in Hone. injection Hone as ->. simpl.
    apply sublist_skip. exact IH.
Qed.

(** ** Looking a node up among the arguments *)

Lemma indexOf_from_found (l : list Node) (x : Node) (i : Z) :
  0 <= i ->
  indexOf_from l x i <> -1 <-> exists a, a ∈ l /\ same_node a x = true.
Proof.
  revert i. induction l as [|y l IH]; intros i Hi; simpl.
  - split; [done|]. intros (a & Ha & _). inversion Ha.
  - destruct (same_node y x) eqn:Hy.
    + split; [|lia]. intros _. exists y. split; [left|exact Hy].
    + rewrite IH by lia. split.
      * intros (a & Ha & Hs). exists a. split; [right; exact Ha|exact Hs].
      * intros (a & Ha & Hs). apply elem_of_cons in Ha as [->|Ha]; [congruence|].
        exists a. split; assumption.
Qed.

Lemma indexOf_found (l : list Node) (x : Node) :
  negb (indexOf l x =? -1) = true <-> exists a, a ∈ l /\ same_node a x = true.
Proof.
  rewrite negb_true_iff, Z.eqb_neq. apply indexOf_from_found. lia.
Qed.

Lemma isReturnValueUsed_call (i : NodeInfo) (e : Node)
    (targs : option (NodeArray Node)) (args : NodeArray Node) (node : Node) :
  isReturnValueUsed (CallExpression i e targs args) node = true <->
  exists a, a ∈ elements args /\ same_node a node = true.
Proof. unfold isReturnValueUsed. simpl. apply indexOf_found. Qed.

Lemma isReturnValueUsed_new (i : NodeInfo) (e : Node)
    (targs oargs : option (NodeArray Node)) (node : Node) :
  isReturnValueUsed (NewExpression i e targs oargs) node = true <->
  exists args, oargs = Some args /\
    exists a, a ∈ elements args /\ same_node a node = true.
Proof.
  unfold isReturnValueUsed. simpl. destruct oargs as [args|].
  - rewrite indexOf_found. split.
    + intros H. exists args. split; [reflexivity|exact H].
    + intros (? & [= <-] & H). exact H.
  - split; [discriminate|]. intros (? & [=] & _).
Qed.

(** ** The layout of a fix *)

Lemma overlap_sym (a b : Replacement) : overlap a b -> overlap b a.
Proof. unfold overlap. tauto. Qed.

Lemma chain_app (lo mid hi : Z) (xs ys : list Replacement) :
  chain lo xs mid -> chain mid ys hi -> chain lo (xs ++ ys) hi.
Proof.
  revert lo. induction xs as [|r xs IH]; intros lo; simpl.
  - intros Hlo Hys. destruct ys as [|y ys]; simpl in *; [lia|].
    destruct Hys as (? & ? & ?). repeat split; [lia|assumption|assumption].
  - intros (? & ? & Hxs) Hys. repeat split; auto.
Qed.

Lemma chain_weaken (lo lo' hi hi' : Z) (ops : list Replacement) :
  lo' <= lo -> hi <= hi' -> chain lo ops hi -> chain lo' ops hi'.
Proof.
  intros Hlo Hhi. revert lo lo' Hlo. induction ops as [|r ops IH];
    intros lo lo' Hlo; simpl.
  - lia.
  - intros (? & ? & Hrest). repeat split; [lia|assumption|].
    apply (IH (r_end r)); [lia|exact Hrest].
Qed.

Lemma chain_after (lo hi : Z) (a : Replacement) (rest : list Replacement) :
  chain lo (a :: rest) hi ->
  Forall (fun b => r_end a <= r_start b /\ 0 <= r_length b) rest.
Proof.
  simpl. intros (_ & _ & Hrest). revert Hrest. generalize (r_end a) as c.
  induction rest as [|b rest IH]; intros c; simpl; [constructor|].
  intros (Hb & Hlen & Hrest). constructor; [lia|].
  apply (IH c). apply (chain_weaken (r_end b) c hi hi); [unfold r_end; lia|lia|exact Hrest].
Qed.

Lemma chain_disjoint (lo hi : Z) (ops : list Replacement) :
  chain lo ops hi -> Disjoint ops.
Proof.
  revert lo. induction ops as [|a rest IH]; intros lo H; simpl; [exact I|].
  split.
  - eapply Forall_impl; [exact (chain_after lo hi a rest H)|].
    simpl. intros b [Hb _] [_ Hov]. lia.
  - destruct H as (_ & _ & Hrest). exact (IH _ Hrest).
Qed.

Lemma Disjoint_Permutation (l l' : list Replacement) :
  l ≡ₚ l' -> Disjoint l -> Disjoint l'.
Proof.
  induction 1 as [|x l l' Hp IH|x y l|l l' l'' _ IH1 _ IH2]; simpl.
  - auto.
  - intros [Hx Hl]. split; [|auto]. rewrite <- Hp. exact Hx.
  - intros [Hy [Hx Hl]]. inversion Hy as [|? ? Hyx Hyl]; subst.
    split; [|split; [exact Hyl|exact Hl]].
    constructor; [|exact Hx]. intros Hov. apply Hyx, overlap_sym, Hov.
  - auto.
Qed.

Lemma Disjoint_NonOverlapping (ops : list Replacement) :
  Disjoint ops -> NonOverlapping ops.
Proof.
  assert (Hlt : forall ops, Disjoint ops ->
    forall i j a b, (i < j)%nat -> ops !! i = Some a -> ops !! j = Some b ->
      ~ overlap a b).
  { clear ops. induction ops as [|x ops IH]; intros Hd i j a b Hij Hi Hj.
    - destruct i; discriminate.
    - destruct Hd as [Hx Hd].
      destruct j as [|j]; [lia|]. destruct i as [|i]; simpl in *.
      + injection Hi as <-. rewrite Forall_forall in Hx. apply Hx.
        eapply list_elem_of_lookup_2. exact Hj.
      + apply (IH Hd i j); [lia|assumption|assumption]. }
  intros Hd i j a b Hne Hi Hj.
  destruct (Nat.lt_total i j) as [Hij|[Heq|Hji]]; [|done|].
  - exact (Hlt ops Hd i j a b Hij Hi Hj).
  - intros Hov. exact (Hlt ops Hd j i b a Hji Hj Hi (overlap_sym _ _ Hov)).
Qed.

Lemma fixArgument_chain (args : NodeArray Node) (pre rest : list Node) (arg : Node)
    (piece : list Replacement) :
  elements args = pre ++ arg :: rest ->
  argumentsInOrder (arg :: rest) (array_end args) ->
  fixArgument args (length pre) = Some piece ->
  chain (getStart arg) piece
    (match rest with next :: _ => getStart next | [] => array_end args end).
Proof.
  intros He (Hspan & Hnext & Hrest) Hpiece.
  assert (Hi : elements args !! length pre = Some arg).
  { rewrite He. apply list_lookup_middle. reflexivity. }
  assert (Hi1 : elements args !! (length pre + 1)%nat = head rest).
  { rewrite He, (lookup_app_r pre) by lia.
    replace (length pre + 1 - length pre)%nat with 1%nat by lia.
    simpl. destruct rest; reflexivity. }
  assert (Hlen : Z.of_nat (length pre) = Z.of_nat (length (elements args)) - 1 <-> rest = []).
  { rewrite He, length_app. simpl. destruct rest; simpl; split; intros; try done; lia. }
  assert (Hbound : match rest with next :: _ => getStart next | [] => array_end args end
                   <= array_end args).
  { destruct rest as [|next rest']; [lia|].
    destruct Hrest as ((Hn & _) & Hn' & Hrest').
    transitivity (node_end next); [exact Hn|].
    clear - Hn' Hrest'. revert next Hn' Hrest'.
    induction rest' as [|y ys IH]; intros next Hn' Hrest'; [exact Hn'|].
    destruct Hrest' as ((Hy & _) & Hy' & Hys).
    specialize (IH y Hy' Hys). lia. }
  destruct Hspan as [Hse Hlit].
  unfold fixArgument in Hpiece. rewrite Hi in Hpiece. simpl in Hpiece.
  destruct arg as [ | | | | inf props | | | | ];
    try (injection Hpiece as <-; unfold getStart, node_end in *; simpl in *;
         try destruct (needsParens _); simpl; unfold r_end; simpl; lia).
  unfold getStart, node_end in *. simpl in *.
  destruct (Z.eqb_spec (Z.of_nat (length (elements props))) 0) as [Hempty|Hprops].
  - destruct (Z.eqb_spec (Z.of_nat (length pre)) (Z.of_nat (length (elements args)) - 1))
      as [Hlast|Hmore]; simpl in Hpiece.
    + apply Hlen in Hlast. subst rest.
      destruct (decide (hasTrailingComma args = Some true));
        injection Hpiece as <-; simpl; unfold r_end; simpl; lia.
    + rewrite Hi1 in Hpiece. destruct rest as [|next rest']; [discriminate|].
      simpl in Hpiece. injection Hpiece as <-. simpl. unfold r_end. simpl.
      unfold getStart. lia.
  - destruct (elements props !! (length (elements props) - 1)%nat) as [p|] eqn:Hp;
      [|discriminate].
    simpl in Hpiece. injection Hpiece as <-.
    assert (Hl : last (elements props) = Some p).
    { rewrite last_lookup, <- Hp. f_equal. lia. }
    specialize (Hlit p Hl). simpl. unfold r_end. simpl. unfold node_end in *. lia.
Qed.

Lemma fixArguments_chain (args : NodeArray Node) (post pre : list Node)
    (pieces : list (list Replacement)) :
  elements args = pre ++ post ->
  argumentsInOrder post (array_end args) ->
  Forall2 (fun i piece => fixArgument args i = Some piece)
    (seq (length pre) (length post)) pieces ->
  chain (match post with arg :: _ => getStart arg | [] => array_end args end)
    (concat pieces) (array_end args).
Proof.
  revert pre pieces. induction post as [|arg rest IH]; intros pre pieces He Hord Hps.
  - inversion Hps; subst. simpl. lia.
  - simpl in Hps. inversion Hps as [|i piece ? pieces' Hpiece Hrest]; subst.
    simpl concat.
    apply (chain_app _ (match rest with next :: _ => getStart next
                                       | [] => array_end args end)).
    + exact (fixArgument_chain args pre rest arg piece He Hord Hpiece).
    + apply (IH (pre ++ [arg])).
      * rewrite <- app_assoc. exact He.
      * destruct Hord as (_ & _ & Hord). exact Hord.
      * rewrite length_app. simpl. rewrite Nat.add_1_r. exact Hrest.
Qed.

(** The layout of a whole fix: the opening brace, the pieces of the
    arguments in order, the closing brace. *)
Lemma createFix_chain (node : Node) :
  ObjectAssignShape node ->
  PositionsInOrder node ->
  exists args arg0 pieces,
    arguments_of node = Some args /\
    elements args !! 0%nat = Some arg0 /\
    Forall2 (fun i piece => fixArgument args i = Some piece)
      (seq 0 (length (elements args))) pieces /\
    createFix node = Some (fixHeader node arg0 ++ concat pieces) /\
    chain (getStart node)
      (replaceFromTo (getStart node) (getStart arg0) "{" ::
       concat pieces ++ [mkReplacement (node_end node - 1) 1 "}"])
      (node_end node).
Proof.
  intros Hshape Hpos.
  destruct (shape_arguments node Hshape) as (args & arg0 & Hargs & H0).
  destruct (createFix_pieces node args arg0 Hargs H0) as (pieces & Hall & Hfix & _).
  apply mapM_Some in Hall.
  exists args, arg0, pieces. repeat (split; [assumption|]).
  unfold PositionsInOrder in Hpos. rewrite Hargs in Hpos.
  destruct (elements args) as [|arg0' rest] eqn:He; [discriminate|].
  injection H0 as ->. destruct Hpos as (Hstart & Hord & Hend).
  assert (Hbody : chain (getStart arg0) (concat pieces) (array_end args)).
  { exact (fixArguments_chain args (arg0 :: rest) [] pieces He Hord Hall). }
  simpl. unfold r_end. simpl. repeat split; try lia.
  replace (getStart node + (getStart arg0 - getStart node)) with (getStart arg0) by lia.
  apply (chain_app _ (node_end node - 1)).
  - apply (chain_weaken (getStart arg0) _ (array_end args)); [lia|lia|exact Hbody].
  - simpl. unfold r_end. simpl. lia.
Qed.

(** Sorting by offset leaves a left-to-right layout as it is. *)
Lemma before_chain (a b : Replacement) :
  0 <= r_length a -> 0 <= r_length b -> r_end a <= r_start b -> before a b = true.
Proof.
  unfold before, r_end. intros Ha Hb Hab.
  destruct (Z.ltb_spec (r_start a) (r_start b)); [reflexivity|]. simpl.
  apply andb_true_iff. split; [apply Z.eqb_eq|apply Z.leb_le]; lia.
Qed.

Lemma byOffset_chain (lo hi : Z) (ops : list Replacement) :
  chain lo ops hi -> byOffset ops = ops.
Proof.
  revert lo. induction ops as [|a rest IH]; intros lo H; [reflexivity|].
  unfold byOffset in *. simpl. pose proof (chain_after lo hi a rest H) as Hafter.
  destruct H as (_ & Ha & Hrest). rewrite (IH _ Hrest).
  destruct rest as [|b rest]; [reflexivity|]. simpl.
  inversion Hafter as [|? ? [Hab Hb] _]; subst.
  rewrite before_chain by assumption. reflexivity.
Qed.

Lemma insertOp_last (r : Replacement) (ops : list Replacement) :
  Forall (fun x => before r x = false) ops -> insertOp r ops = ops ++ [r].
Proof.
  induction 1 as [|x ops Hx _ IH]; simpl; [reflexivity|].
  rewrite Hx, IH. reflexivity.
Qed.

Lemma splice_chain (content : string) (lo hi : Z) (ops : list Replacement) :
  chain lo ops hi -> is_Some (splice content lo ops).
Proof.
  revert lo. induction ops as [|r rest IH]; intros lo H; simpl.
  - eexists; reflexivity.
  - destruct H as (Hlo & Hlen & Hrest).
    destruct (Z.ltb_spec (r_start r) lo); [lia|].
    destruct (Z.ltb_spec (r_length r) 0); [lia|]. simpl.
    destruct (IH _ Hrest) as [tail ->]. eexists; reflexivity.
Qed.

Lemma chain_before_last (lo hi : Z) (xs : list Replacement) (r : Replacement) :
  chain lo (xs ++ [r]) hi ->
  Forall (fun x => 0 <= r_length x /\ r_end x <= r_start r) xs.
Proof.
  revert lo. induction xs as [|x xs IH]; intros lo H; [constructor|].
  pose proof (chain_after lo hi x (xs ++ [r]) H) as Hafter.
  destruct H as (_ & Hx & Hrest). constructor.
  - split; [exact Hx|]. rewrite Forall_app, Forall_singleton in Hafter. tauto.
  - exact (IH _ Hrest).
Qed.

(** Sorted by offset, a fix is its opening brace, the pieces of the
    arguments as the loop pushed them, and its closing brace. *)
Lemma byOffset_fix (lo hi : Z) (open : Replacement) (body : list Replacement)
    (close : Replacement) :
  chain lo (open :: body ++ [close]) hi ->
  0 < r_length close ->
  byOffset (open :: close :: body) = open :: body ++ [close].
Proof.
  intros Hchain Hclose.
  pose proof (chain_after _ _ _ _ Hchain) as Hafter.
  destruct Hchain as (_ & Hopen & Hrest).
  pose proof (chain_before_last _ _ _ _ Hrest) as Hbefore.
  assert (Hbody : byOffset body = body).
  { apply (byOffset_chain (r_end open) (r_start close)).
    clear - Hrest. revert Hrest. generalize (r_end open) as c.
    induction body as [|x xs IH]; intros c; simpl.
    - intros (? & _). assumption.
    - intros (? & ? & Hxs). repeat split; auto. }
  unfold byOffset in *. simpl. rewrite Hbody.
  rewrite (insertOp_last close body).
  - destruct (body ++ [close]) as [|y ys] eqn:Hy; [reflexivity|]. simpl.
    inversion Hafter as [|? ? [Hoy Hylen] _]; subst.
    rewrite before_chain by assumption. reflexivity.
  - eapply Forall_impl; [exact Hbefore|]. simpl. intros x [Hx Hxc].
    unfold before, r_end in *.
    apply orb_false_iff. split; [apply Z.ltb_ge; lia|].
    apply andb_false_iff. right. apply Z.leb_gt. lia.
Qed.

Lemma string_app_assoc (a b c : string) :
  ((a ++ b) ++ c = a ++ (b ++ c))%string.
Proof. induction a as [|x a IH]; simpl; [reflexivity|]. rewrite IH. reflexivity. Qed.

(** Discharges the overlap tests of [splice] on ops that are in order. *)
Ltac in_order :=
  repeat (match goal with
          | |- context [Z.ltb ?a ?b] => destruct (Z.ltb_spec a b); [lia|]
          end; cbn [orb mbind option_bind]).

(** Two texts that differ in how their appends are grouped. *)
Ltac regroup :=
  unfold nodeText, getStart, node_end, r_end; simpl;
  repeat (rewrite string_app_assoc; simpl); reflexivity.

(** What the loop pushes for an argument, read off the argument and the
    ones after it. *)
Lemma fixArgument_at (args : NodeArray Node) (pre rest : list Node) (arg : Node) :
  elements args = pre ++ arg :: rest ->
  fixArgument args (length pre) =
  Some match arg with
       | ObjectLiteralExpression inf props =>
           match last (elements props) with
           | None =>
               [deleteFromTo (start inf)
                  match rest with
                  | next :: _ => getStart next
                  | [] =>
                      if decide (hasTrailingComma args = Some true)
                      then array_end args else end_ inf
                  end]
           | Some p =>
               [deleteText (start inf) 1; deleteFromTo (node_end p) (end_ inf)]
           end
       | _ =>
           appendText (getStart arg) (if needsParens arg then "...(" else "...")
             :: (if needsParens arg then [appendText (node_end arg) ")"] else [])
       end.
Proof.
  intros He.
  assert (Hi : elements args !! length pre = Some arg).
  { rewrite He. apply list_lookup_middle. reflexivity. }
  destruct (SyntaxKind.eq_dec (kind arg) SyntaxKind.ObjectLiteralExpression) as [Hk|Hk].
  - destruct arg as [ | | | | inf props | | | | ? k u ? ]; try discriminate Hk;
      [|simpl in Hk; subst k; discriminate u].
    unfold fixArgument. rewrite Hi. simpl.
    destruct (elements props) as [|p ps] eqn:Hprops.
    + assert (Hlen : length (elements args) = (length pre + 1 + length rest)%nat).
      { rewrite He, length_app. simpl. lia. }
      simpl. destruct rest as [|next rest'].
      * replace (Z.of_nat (length pre) =? Z.of_nat (length (elements args)) - 1)
          with true by (symmetry; apply Z.eqb_eq; simpl in Hlen; lia).
        simpl. destruct (decide (hasTrailingComma args = Some true)); reflexivity.
      * replace (Z.of_nat (length pre) =? Z.of_nat (length (elements args)) - 1)
          with false by (symmetry; apply Z.eqb_neq; simpl in Hlen; lia).
        simpl. rewrite He, (lookup_app_r pre) by lia.
        replace (length pre + 1 - length pre)%nat with 1%nat by lia. reflexivity.
    + rewrite last_lookup.
      replace (Z.of_nat (length (p :: ps)) =? 0) with false
        by (symmetry; apply Z.eqb_neq; simpl; lia).
      replace (length (p :: ps) - 1)%nat with (Init.Nat.pred (length (p :: ps)))
        by (simpl; lia).
      destruct (lookup_lt_is_Some_2 (p :: ps) (Init.Nat.pred (length (p :: ps))))
        as [q ->]; [simpl; lia|]. reflexivity.
  - rewrite (fixArgument_other args (length pre) arg Hi Hk).
    destruct arg; try reflexivity. simpl in Hk. done.
Qed.

Lemma splice_rendered (text : string) (args : NodeArray Node) (close : Replacement)
    (post pre : list Node) (pieces : list (list Replacement)) (cursor : Z) :
  elements args = pre ++ post ->
  argumentsInOrder post (array_end args) ->
  Forall2 (fun i piece => fixArgument args i = Some piece)
    (seq (length pre) (length post)) pieces ->
  cursor <= match post with arg :: _ => getStart arg | [] => r_start close end ->
  array_end args <= r_start close ->
  0 <= r_length close ->
  splice text cursor (concat pieces ++ [close]) =
  Some (rendered text args (r_start close) cursor post ++
        r_text close ++ rest_from text (r_end close))%string.
Proof.
  revert pre pieces cursor.
  induction post as [|arg rest IH]; intros pre pieces cursor He Hord Hps Hc Hhi Hlen.
  - inversion Hps; subst. simpl.
    destruct (Z.ltb_spec (r_start close) cursor); [lia|].
    destruct (Z.ltb_spec (r_length close) 0); [lia|]. reflexivity.
  - simpl in Hps. inversion Hps as [|i piece ? pieces' Hpiece Hrest]; subst.
    rewrite (fixArgument_at args pre rest arg He) in Hpiece. injection Hpiece as <-.
    destruct Hord as ((Hse & Hlit) & Hnext & Hord).
    assert (Hbound : match rest with next :: _ => getStart next | [] => array_end args end
                     <= match rest with next :: _ => getStart next | [] => r_start close end).
    { destruct rest; lia. }
    assert (IH' : forall c,
      c <= match rest with next :: _ => getStart next | [] => r_start close end ->
      splice text c (concat pieces' ++ [close]) =
      Some (rendered text args (r_start close) c rest ++
            r_text close ++ rest_from text (r_end close))%string).
    { intros c Hc'. apply (IH (pre ++ [arg])); try assumption.
      - rewrite <- app_assoc. exact He.
      - rewrite length_app. simpl. rewrite Nat.add_1_r. exact Hrest. }
    simpl concat. rewrite <- app_assoc.
    destruct arg as [ | | | | inf props | | | | ];
      unfold getStart, node_end in *; simpl in Hc, Hse, Hnext |- *;
      try (destruct (needsParens _) eqn:Hp; simpl; unfold r_end; simpl;
           rewrite ?Z.add_0_r, IH' by lia; in_order; regroup).
    destruct (last (elements props)) as [p|] eqn:Hlast; simpl.
    + specialize (Hlit p eq_refl). unfold node_end in Hlit.
      unfold r_end. simpl.
      replace (end_ (info p) + (end_ inf - end_ (info p))) with (end_ inf) by lia.
      rewrite IH' by lia. in_order. regroup.
    + set (E := match rest with
                | [] => if decide (hasTrailingComma args = Some true)
                        then array_end args else end_ inf
                | next :: _ => start (info next)
                end).
      assert (HE : start inf <= E /\
                   E <= match rest with next :: _ => start (info next)
                                      | [] => r_start close end).
      { subst E. destruct rest; [|lia].
        destruct (decide (hasTrailingComma args = Some true)); lia. }
      unfold r_end. simpl.
      replace (start inf + (E - start inf)) with E by lia.
      rewrite IH' by lia. in_order. regroup.
Qed.

(** ** The JSON array *)

Lemma pushAll_map {Failure : Type} (toJson : Failure -> JsonFormatter.JSON)
    (failures : list Failure) (failuresJSON : list JsonFormatter.JSON) :
  JsonFormatter.pushAll Failure toJson failures failuresJSON =
  failuresJSON ++ map toJson failures.
Proof.
  revert failuresJSON. induction failures as [|f failures IH];
    intros failuresJSON; simpl.
  - rewrite app_nil_r. reflexivity.
  - unfold JsonFormatter.pushAll in *. simpl. rewrite IH, <- app_assoc. reflexivity.
Qed.

(** ** The sample trees match their texts *)

(** Every node of a sample spans the text it stands for, and no two nodes
    of a sample are the same object. *)
Lemma samples_read_back :
  map (nodeText Samples.text1) (snd <$> descendants Samples.file1) =
    ["Object.assign({}, {a: 1}, b)"; "Object.assign({}, {a: 1}, b)";
     "Object.assign"; "Object"; "assign"; "{}"; "{a: 1}"; "a: 1"; "a"; "1";
     "b"] /\
  map (nodeText Samples.text2) (snd <$> descendants Samples.file2) =
    ["Object.assign(cond ? a : b, c)"; "Object.assign(cond ? a : b, c)";
     "Object.assign"; "Object"; "assign"; "cond ? a : b"; "cond"; "?"; "a";
     ":"; "b"; "c"] /\
  map (nodeText Samples.text3) (snd <$> descendants Samples.file3) =
    ["Object.assign({a: 1}, b, {})"; "Object.assign({a: 1}, b, {})";
     "Object.assign"; "Object"; "assign"; "{a: 1}"; "a: 1"; "a"; "1"; "b";
     "{}"] /\
  map (nodeText Samples.text4) (snd <$> descendants Samples.file4) =
    ["Object.assign(Object.assign({}, a), b)";
     "Object.assign(Object.assign({}, a), b)"; "Object.assign"; "Object";
     "assign"; "Object.assign({}, a)"; "Object.assign"; "Object"; "assign";
     "{}"; "a"; "b"] /\
  map (nodeText Samples.text5) (snd <$> descendants Samples.file5) =
    ["Object.assign({}, Object.assign({}, a), b)";
     "Object.assign({}, Object.assign({}, a), b)"; "Object.assign"; "Object";
     "assign"; "{}"; "Object.assign({}, a)"; "Object.assign"; "Object";
     "assign"; "{}"; "a"; "b"] /\
  map (nodeText Samples.text6) (snd <$> descendants Samples.file6) =
    ["Object.assign(a, b)(x)"; "Object.assign(a, b)(x)";
     "Object.assign(a, b)"; "Object.assign"; "Object"; "assign"; "a"; "b";
     "x"] /\
  map (nodeText Samples.text7) (snd <$> descendants Samples.file7) =
    ["Object.assign(a, b) = c"; "Object.assign(a, b) = c";
     "Object.assign(a, b)"; "Object.assign"; "Object"; "assign"; "a"; "b";
     "="; "c"] /\
  map (nodeText Samples.text8) (snd <$> descendants Samples.file8) =
    ["const x = Object.assign(y, z)"; "const x = Object.assign(y, z)";
     "x = Object.assign(y, z)"; "x"; "Object.assign(y, z)"; "Object.assign";
     "Object"; "assign"; "y"; "z"] /\
  map (nodeText Samples.text9) (snd <$> descendants Samples.file9) =
    ["Object.assign(y, z);"; "Object.assign(y, z)"; "Object.assign";
     "Object"; "assign"; "y"; "z"] /\
  Forall (fun file => NoDup (map (fun n => ref (info n)) (file :: (snd <$> descendants file))))
    [Samples.file1; Samples.file2; Samples.file3; Samples.file4;
     Samples.file5; Samples.file6; Samples.file7; Samples.file8;
     Samples.file9].
Proof.
  repeat split.
  repeat constructor; apply (bool_decide_unpack _); vm_compute; reflexivity.
Qed.

(** * Part III: the properties the specification states *)

(** C1: for a call of the shape the rule matches, met by the walk below a
    parent, the rule reports exactly one failure with the spread message
    and the fix when the first argument is an object literal; otherwise
    exactly one failure with the assignment message and the fix when the
    return value is used and the first argument has no side effects in the
    constructor category; and no failure in every other case.  That is
    what the visit of the call adds to the context, what the callback
    leaves before the failures of the nodes below the call, and what a run
    over a source file holding the call has between the failures of the
    nodes visited before the call and those of the nodes visited after
    it. *)
Theorem report_cases (hasSideEffects : Node -> SideEffectOptions -> bool)
    (parent node : Node) :
  ObjectAssignShape node ->
  exists args arg0 fix_ own,
    arguments_of node = Some args /\
    elements args !! 0%nat = Some arg0 /\
    createFix node = Some fix_ /\
    (kind arg0 = SyntaxKind.ObjectLiteralExpression ->
     own = [mkFailure node FAILURE_STRING (Some fix_)]) /\
    (kind arg0 <> SyntaxKind.ObjectLiteralExpression ->
     isReturnValueUsed parent node = true ->
     hasSideEffects arg0 Constructor = false ->
     own = [mkFailure node ASSIGNMENT_FAILURE_STRING (Some fix_)]) /\
    (kind arg0 <> SyntaxKind.ObjectLiteralExpression ->
     isReturnValueUsed parent node = false \/
     hasSideEffects arg0 Constructor = true ->
     own = []) /\
    (forall failures,
       report hasSideEffects parent node failures = Some (tt, failures ++ own)) /\
    (forall failures,
       cb hasSideEffects parent node failures =
         Some (None, failures ++ own ++
                     flat_map (reportedAt hasSideEffects) (descendants node))) /\
    (forall sourceFile before after failures,
       descendants sourceFile = before ++ (parent, node) :: after ->
       walk hasSideEffects sourceFile failures =
         Some (None, failures ++
                     flat_map (reportedAt hasSideEffects) before ++ own ++
                     flat_map (reportedAt hasSideEffects) after)) /\
    (forall sourceFile before after,
       descendants sourceFile = before ++ (parent, node) :: after ->
       apply hasSideEffects sourceFile =
         Some (flat_map (reportedAt hasSideEffects) before ++ own ++
               flat_map (reportedAt hasSideEffects) after)).
Proof.
  intros Hshape.
  destruct (reported_matched hasSideEffects parent node Hshape)
    as (args & arg0 & fix_ & Hargs & H0 & Hfix & Hrep).
  exists args, arg0, fix_, (reported hasSideEffects parent node).
  repeat (split; [assumption|]).
  assert (Hwalk : forall sourceFile before after failures,
    descendants sourceFile = before ++ (parent, node) :: after ->
    walk hasSideEffects sourceFile failures =
      Some (None, failures ++
                  flat_map (reportedAt hasSideEffects) before ++
                  reported hasSideEffects parent node ++
                  flat_map (reportedAt hasSideEffects) after)).
  { intros sourceFile before after failures Hsplit.
    rewrite walk_descendants, Hsplit, flat_map_app. reflexivity. }
  split; [|split; [|split; [|split; [|split; [|split]]]]].
  - intros Hk. apply kind_eqb_eq in Hk. rewrite Hrep, Hk. reflexivity.
  - intros Hk Hused Hpure. apply kind_eqb_neq in Hk.
    rewrite Hrep, Hk, Hused, Hpure. reflexivity.
  - intros Hk Hor. apply kind_eqb_neq in Hk. rewrite Hrep, Hk.
    destruct Hor as [-> | ->]; simpl; rewrite ?andb_false_r; reflexivity.
  - intros failures. apply report_reported.
  - intros failures. rewrite cb_preorder, preorder_children. reflexivity.
  - exact Hwalk.
  - intros sourceFile before after Hsplit. unfold apply.
    rewrite (Hwalk sourceFile before after [] Hsplit). reflexivity.
Qed.

Lemma report_cases_witness :
  apply (fun _ _ => false) Samples.file1 =
    Some [mkFailure Samples.call1 FAILURE_STRING (createFix Samples.call1)] /\
  apply (fun _ _ => false) Samples.file8 =
    Some [mkFailure Samples.call8 ASSIGNMENT_FAILURE_STRING
            (createFix Samples.call8)] /\
  apply (fun _ _ => true) Samples.file8 = Some [] /\
  apply (fun _ _ => false) Samples.file9 = Some [].
Proof.
  split; [|split; [|split]].
  - destruct (report_cases (fun _ _ => false) Samples.statement1 Samples.call1
                (proj1 (isObjectAssignCall_iff Samples.call1) eq_refl))
      as (args & arg0 & fix_ & own & Hargs & H0 & Hfix & Hlit & _ & _ & _ & _ & _ & Happ).
    injection Hargs as <-. injection H0 as <-.
    rewrite (Happ Samples.file1 [(Samples.file1, Samples.statement1)]
               (tl (tl (descendants Samples.file1))) eq_refl).
    rewrite (Hlit eq_refl), Hfix. reflexivity.
  - destruct (report_cases (fun _ _ => false) Samples.declaration8 Samples.call8
                (proj1 (isObjectAssignCall_iff Samples.call8) eq_refl))
      as (args & arg0 & fix_ & own & Hargs & H0 & Hfix & _ & Hused & _ & _ & _ & _ & Happ).
    injection Hargs as <-. injection H0 as <-.
    rewrite (Happ Samples.file8 (take 4 (descendants Samples.file8))
               (drop 5 (descendants Samples.file8)) eq_refl).
    rewrite Hused, Hfix; [reflexivity|discriminate|reflexivity|reflexivity].
  - destruct (report_cases (fun _ _ => true) Samples.declaration8 Samples.call8
                (proj1 (isObjectAssignCall_iff Samples.call8) eq_refl))
      as (args & arg0 & fix_ & own & Hargs & H0 & Hfix & _ & _ & Hnone & _ & _ & _ & Happ).
    injection Hargs as <-. injection H0 as <-.
    rewrite (Happ Samples.file8 (take 4 (descendants Samples.file8))
               (drop 5 (descendants Samples.file8)) eq_refl).
    rewrite Hnone; [reflexivity|discriminate|right; reflexivity].
  - destruct (report_cases (fun _ _ => false)
                (Samples.statement 1 0 20 Samples.call9) Samples.call9
                (proj1 (isObjectAssignCall_iff Samples.call9) eq_refl))
      as (args & arg0 & fix_ & own & Hargs & H0 & Hfix & _ & _ & Hnone & _ & _ & _ & Happ).
    injection Hargs as <-. injection H0 as <-.
    rewrite (Happ Samples.file9
               [(Samples.file9, Samples.statement 1 0 20 Samples.call9)]
               (tl (tl (descendants Samples.file9))) eq_refl).
    rewrite Hnone; [reflexivity|discriminate|left; reflexivity].
Defined.

(** C3: in the fix of a matched call, an argument that is an object literal
    without properties contributes one deletion that starts where the
    argument starts and runs to the start of the next argument when there
    is one, to the end of the argument list when it is the last argument
    and the list has a trailing comma, and to the end of the argument
    otherwise; [Object.assign({}, {a: 1}, b)] becomes [{a: 1, ...b}]. *)
Theorem empty_literal_deleted (node : Node) (args : NodeArray Node) (i : nat)
    (inf : NodeInfo) (props : NodeArray Node) :
  ObjectAssignShape node ->
  arguments_of node = Some args ->
  elements args !! i = Some (ObjectLiteralExpression inf props) ->
  elements props = [] ->
  (exists arg0 pieces,
     elements args !! 0%nat = Some arg0 /\
     pushedByLoop args = Some pieces /\
     createFix node = Some (fixHeader node arg0 ++ concat pieces) /\
     length pieces = length (elements args) /\
     pieces !! i =
       Some [deleteFromTo (start inf)
               match elements args !! (i + 1)%nat with
               | Some next => getStart next
               | None =>
                   if decide (hasTrailingComma args = Some true)
                   then array_end args else end_ inf
               end]) /\
  fixedText Samples.text1 Samples.call1 = Some "{a: 1, ...b}".
Proof.
  intros Hshape Hargs Hi Hprops. split; [|reflexivity].
  destruct (shape_arguments node Hshape) as (args' & arg0 & Hargs' & H0).
  rewrite Hargs in Hargs'. injection Hargs' as <-.
  destruct (createFix_pieces node args arg0 Hargs H0) as (pieces & Hloop & Hfix & Hlen & Hpieces).
  exists arg0, pieces. repeat (split; [assumption|]).
  pose proof (lookup_lt_Some _ _ _ Hi) as Hlt.
  rewrite <- (Hpieces i Hlt). unfold fixArgument. rewrite Hi. simpl.
  rewrite Hprops. simpl.
  destruct (Z.eqb_spec (Z.of_nat i) (Z.of_nat (length (elements args)) - 1)) as [Hlast|Hmore]; simpl.
  - rewrite (lookup_ge_None_2 (elements args) (i + 1)) by lia.
    destruct (decide (hasTrailingComma args = Some true)); reflexivity.
  - destruct (lookup_lt_is_Some_2 (elements args) (i + 1)) as [next ->]; [lia|].
    reflexivity.
Qed.

Lemma empty_literal_deleted_witness :
  (exists arg0 pieces,
     elements Samples.args1 !! 0%nat = Some arg0 /\
     pushedByLoop Samples.args1 = Some pieces /\
     createFix Samples.call1 = Some (fixHeader Samples.call1 arg0 ++ concat pieces) /\
     length pieces = 3%nat /\
     pieces !! 0%nat = Some [deleteFromTo 14 18]) /\
  fixedText Samples.text1 Samples.call1 = Some "{a: 1, ...b}".
Proof.
  exact (empty_literal_deleted Samples.call1 Samples.args1 0
           (mkInfo 6 14 16) (mkArray [] 15 None)
           (proj1 (isObjectAssignCall_iff Samples.call1) eq_refl)
           eq_refl eq_refl eq_refl).
Defined.

(** C4: in the fix of a matched call, an argument that is not an object
    literal contributes the insertion of the spread marker right before it,
    with an opening parenthesis after the marker and a closing parenthesis
    right after the argument exactly when the argument is a conditional or
    a binary expression;
    [Object.assign(cond ? a : b, c)] becomes [{...(cond ? a : b), ...c}]. *)
Theorem other_argument_spread (node : Node) (args : NodeArray Node) (i : nat)
    (arg : Node) :
  ObjectAssignShape node ->
  arguments_of node = Some args ->
  elements args !! i = Some arg ->
  kind arg <> SyntaxKind.ObjectLiteralExpression ->
  (exists arg0 pieces,
     elements args !! 0%nat = Some arg0 /\
     pushedByLoop args = Some pieces /\
     createFix node = Some (fixHeader node arg0 ++ concat pieces) /\
     length pieces = length (elements args) /\
     (kind arg = SyntaxKind.ConditionalExpression \/
      kind arg = SyntaxKind.BinaryExpression ->
      pieces !! i = Some [appendText (getStart arg) "...(";
                          appendText (node_end arg) ")"]) /\
     (kind arg <> SyntaxKind.ConditionalExpression ->
      kind arg <> SyntaxKind.BinaryExpression ->
      pieces !! i = Some [appendText (getStart arg) "..."])) /\
  (needsParens arg = true <->
   kind arg = SyntaxKind.ConditionalExpression \/
   kind arg = SyntaxKind.BinaryExpression) /\
  fixedText Samples.text2 Samples.call2 = Some "{...(cond ? a : b), ...c}".
Proof.
  intros Hshape Hargs Hi Hlit.
  assert (Hparens : needsParens arg = true <->
    kind arg = SyntaxKind.ConditionalExpression \/
    kind arg = SyntaxKind.BinaryExpression).
  { unfold needsParens. destruct (kind arg); split; intros H;
      try discriminate; auto; destruct H; discriminate. }
  split; [|split; [exact Hparens|reflexivity]].
  destruct (shape_arguments node Hshape) as (args' & arg0 & Hargs' & H0).
  rewrite Hargs in Hargs'. injection Hargs' as <-.
  destruct (createFix_pieces node args arg0 Hargs H0) as (pieces & Hloop & Hfix & Hlen & Hpieces).
  exists arg0, pieces. repeat (split; [assumption|]).
  pose proof (lookup_lt_Some _ _ _ Hi) as Hlt.
  rewrite <- (Hpieces i Hlt), (fixArgument_other args i arg Hi Hlit). split.
  - intros Hk. apply Hparens in Hk. rewrite Hk. reflexivity.
  - intros Hc Hb. destruct (needsParens arg) eqn:Hp; [|reflexivity].
    destruct (proj1 Hparens eq_refl); done.
Qed.

Lemma other_argument_spread_witness :
  (exists arg0 pieces,
     elements Samples.args2 !! 0%nat = Some arg0 /\
     pushedByLoop Samples.args2 = Some pieces /\
     createFix Samples.call2 = Some (fixHeader Samples.call2 arg0 ++ concat pieces) /\
     length pieces = 2%nat /\
     (kind Samples.cond2 = SyntaxKind.ConditionalExpression \/
      kind Samples.cond2 = SyntaxKind.BinaryExpression ->
      pieces !! 0%nat = Some [appendText 14 "...("; appendText 26 ")"]) /\
     (kind Samples.cond2 <> SyntaxKind.ConditionalExpression ->
      kind Samples.cond2 <> SyntaxKind.BinaryExpression ->
      pieces !! 0%nat = Some [appendText 14 "..."])) /\
  (needsParens Samples.cond2 = true <->
   kind Samples.cond2 = SyntaxKind.ConditionalExpression \/
   kind Samples.cond2 = SyntaxKind.BinaryExpression) /\
  fixedText Samples.text2 Samples.call2 = Some "{...(cond ? a : b), ...c}".
Proof.
  refine (other_argument_spread Samples.call2 Samples.args2 0 Samples.cond2
            (proj1 (isObjectAssignCall_iff Samples.call2) eq_refl)
            eq_refl eq_refl _).
  discriminate.
Defined.



(** C6, as the code has it: under a binary expression the value counts as
    used exactly when the operator is the plain assignment [=], whichever
    operand the expression is; under a call or a [new] it counts as used
    exactly when the parent has an argument list and the expression is one
    of its elements. *)
Theorem isReturnValueUsed_binary_call :
  (forall i l op r node,
     isReturnValueUsed (BinaryExpression i l op r) node = true <->
     kind op = SyntaxKind.EqualsToken) /\
  (forall i e targs args node,
     isReturnValueUsed (CallExpression i e targs args) node = true <->
     exists a, a ∈ elements args /\ same_node a node = true) /\
  (forall i e targs oargs node,
     isReturnValueUsed (NewExpression i e targs oargs) node = true <->
     exists args, oargs = Some args /\
       exists a, a ∈ elements args /\ same_node a node = true).
Proof.
  split; [|split].
  - intros. unfold isReturnValueUsed. simpl. apply kind_eqb_eq.
  - apply isReturnValueUsed_call.
  - apply isReturnValueUsed_new.
Qed.

(** C6 as stated fails: in [Object.assign(a, b) = c] the call is the left
    operand of the assignment, not its right-hand side, and its value
    still counts as used. *)
Lemma assignment_target_counts_as_used :
  Samples.assign7 =
    BinaryExpression (mkInfo 2 0 23) Samples.left7
      (Samples.plain SyntaxKind.EqualsToken eq_refl 9 20 21 []) Samples.right7 /\
  same_node Samples.left7 Samples.right7 = false /\
  isReturnValueUsed Samples.assign7 Samples.left7 = true.
Proof. repeat split. Qed.

(** C7: a visit reports a failure only for a call with at least one
    argument, whose callee is the member [assign] of the plain identifier
    [Object], and none of whose arguments is a spread; a call with a spread
    argument is never reported; and so every failure of a whole run is
    anchored at a call of that shape. *)
Theorem report_only_object_assign (hasSideEffects : Node -> SideEffectOptions -> bool) :
  (forall parent node failures failures',
     report hasSideEffects parent node failures = Some (tt, failures') ->
     failures' <> failures ->
     ObjectAssignShape node) /\
  (forall parent i e targs args failures a,
     a ∈ elements args ->
     kind a = SyntaxKind.SpreadElement ->
     report hasSideEffects parent (CallExpression i e targs args) failures =
       Some (tt, failures)) /\
  (forall sourceFile failures f,
     apply hasSideEffects sourceFile = Some failures ->
     f ∈ failures ->
     ObjectAssignShape (failure_node f)).
Proof.
  split; [|split].
  - intros parent node failures failures' Hrep Hne.
    rewrite report_reported in Hrep. injection Hrep as <-.
    apply (reported_shape hasSideEffects parent).
    intros E. rewrite E, app_nil_r in Hne. done.
  - intros parent i e targs args failures a Ha Hk.
    rewrite report_reported, reported_unmatched, app_nil_r; [reflexivity|].
    destruct (isObjectAssignCall _) eqn:Hm; [|reflexivity].
    apply isObjectAssignCall_iff in Hm
      as (? & ? & ? & ? & ? & ? & [= -> -> -> ->] & _ & Hsp).
    destruct (Hsp a Ha Hk).
  - intros sourceFile failures f Happ Hf. unfold apply in Happ.
    rewrite walk_descendants in Happ. simpl in Happ. injection Happ as <-.
    apply list_elem_of_In, in_flat_map in Hf as [[p n] [_ Hf]].
    apply list_elem_of_In in Hf. unfold reportedAt in Hf. simpl in Hf.
    destruct (reported_node _ _ _ _ Hf) as (Hrep & -> & _).
    apply (reported_shape hasSideEffects p). rewrite Hrep. done.
Qed.

Lemma report_only_object_assign_witness :
  ObjectAssignShape Samples.call1 /\
  report (fun _ _ => false) Samples.statement1
    (CallExpression (mkInfo 2 0 17) (Samples.objectAssign 3 0) None
       (mkArray [SpreadElement (mkInfo 6 14 16) (Samples.ident 7 15 16 "a")] 16 None))
    [] = Some (tt, []).
Proof.
  destruct (report_only_object_assign (fun _ _ => false)) as (Honly & Hspread & _).
  split.
  - apply (Honly Samples.statement1 Samples.call1 []
             [mkFailure Samples.call1 FAILURE_STRING (createFix Samples.call1)]).
    + reflexivity.
    + discriminate.
  - apply (Hspread Samples.statement1 _ _ _ _ []
             (SpreadElement (mkInfo 6 14 16) (Samples.ident 7 15 16 "a"))).
    + apply list_elem_of_singleton. reflexivity.
    + reflexivity.
Defined.

(** C8, as the code has it: the walk answers for every descendant of the
    source file, below matched calls too, and never stops early; each
    descendant contributes what its own visit reports, so a reported call
    nested in another reported call has its own failure, and the failures
    follow the depth-first pre-order of their calls.
    [Object.assign({}, Object.assign({}, a), b)] yields two findings, the
    outer call first; [Object.assign(Object.assign({}, a), b)] as a
    statement yields one, for the inner call only. *)
Theorem walk_reports_descendants_in_preorder
    (hasSideEffects : Node -> SideEffectOptions -> bool) :
  (forall sourceFile failures,
     walk hasSideEffects sourceFile failures =
       Some (None, failures ++
                   flat_map (reportedAt hasSideEffects) (descendants sourceFile))) /\
  (forall sourceFile,
     exists failures,
       apply hasSideEffects sourceFile = Some failures /\
       sublist (failure_node <$> failures) (snd <$> descendants sourceFile) /\
       forall parent node f,
         (parent, node) ∈ descendants sourceFile ->
         f ∈ reported hasSideEffects parent node ->
         f ∈ failures) /\
  (fmap (M:=list) failure_node <$> apply hasSideEffects Samples.file5 =
     Some [Samples.call5; Samples.inner5]) /\
  (fmap (M:=list) failure_node <$> apply hasSideEffects Samples.file4 =
     Some [Samples.inner4]).
Proof.
  split; [|split; [|split]].
  - intros. apply walk_descendants.
  - intros sourceFile.
    exists (flat_map (reportedAt hasSideEffects) (descendants sourceFile)).
    split; [|split].
    + unfold apply. rewrite walk_descendants. reflexivity.
    + apply reported_nodes_sublist.
    + intros parent node f Hin Hf.
      apply list_elem_of_In, in_flat_map. exists (parent, node).
      split; apply list_elem_of_In; assumption.
  - reflexivity.
  - reflexivity.
Qed.

Lemma walk_reports_descendants_in_preorder_witness :
  mkFailure Samples.call1 FAILURE_STRING (createFix Samples.call1)
    ∈ default [] (apply (fun _ _ => false) Samples.file1).
Proof.
  destruct (walk_reports_descendants_in_preorder (fun _ _ => false))
    as (_ & Hall & _).
  destruct (Hall Samples.file1) as (failures & Happ & _ & Hin).
  rewrite Happ. simpl.
  apply (Hin Samples.statement1 Samples.call1).
  - right. left.
  - left.
Defined.

(** C8 as stated fails: the statement
    [Object.assign(Object.assign({}, a), b)] yields one finding, not two. *)
Lemma nested_statement_one_finding :
  length <$> apply (fun _ _ => false) Samples.file4 = Some 1%nat.
Proof. reflexivity. Qed.

(** C9: [format] answers one JSON array text: an opening bracket, the
    serialization of each failure's own [toJson] value in the order of the
    input, separated by single commas, and a closing bracket; the array has
    as many elements as there are failures, the i-th being the i-th
    failure's. *)
Theorem format_is_array_of_serializations {Failure : Type}
    (toJson : Failure -> JsonFormatter.JSON) (failures : list Failure) :
  JsonFormatter.format Failure toJson failures =
    ("[" ++
     String.concat ","
       (map (fun failure => JsonFormatter.stringify (toJson failure)) failures) ++
     "]")%string /\
  JsonFormatter.format Failure toJson failures =
    JsonFormatter.stringify (JsonFormatter.JArray (map toJson failures)) /\
  length (map toJson failures) = length failures /\
  (forall i, map toJson failures !! i = toJson <$> failures !! i) /\
  JsonFormatter.format Failure toJson [] = "[]".
Proof.
  unfold JsonFormatter.format. rewrite pushAll_map. simpl. rewrite map_map.
  repeat split.
  - apply length_map.
  - intros i. apply list_lookup_fmap.
Qed.

(** C10: under a [new] without an argument list the value is not used;
    under a call or a [new] that does not hold the expression among its
    arguments (the expression is the callee, say) it is not used either;
    and then a call whose first argument is not an object literal is not
    reported, as [Object.assign(a, b)(x)] shows. *)
Theorem callee_position_not_used (hasSideEffects : Node -> SideEffectOptions -> bool) :
  (forall i e targs node,
     isReturnValueUsed (NewExpression i e targs None) node = false) /\
  (forall parent args node,
     kind parent = SyntaxKind.CallExpression \/
     kind parent = SyntaxKind.NewExpression ->
     arguments_of parent = Some args ->
     (forall a, a ∈ elements args -> same_node a node = false) ->
     isReturnValueUsed parent node = false) /\
  (forall parent node args arg0 failures,
     kind parent = SyntaxKind.CallExpression \/
     kind parent = SyntaxKind.NewExpression ->
     (forall pargs a, arguments_of parent = Some pargs ->
        a ∈ elements pargs -> same_node a node = false) ->
     arguments_of node = Some args ->
     elements args !! 0%nat = Some arg0 ->
     kind arg0 <> SyntaxKind.ObjectLiteralExpression ->
     report hasSideEffects parent node failures = Some (tt, failures)) /\
  apply hasSideEffects Samples.file6 = Some [].
Proof.
  assert (Hnot : forall parent node,
    kind parent = SyntaxKind.CallExpression \/
    kind parent = SyntaxKind.NewExpression ->
    (forall pargs a, arguments_of parent = Some pargs ->
       a ∈ elements pargs -> same_node a node = false) ->
    isReturnValueUsed parent node = false).
  { intros parent node Hk Hout. apply not_true_is_false. intros Hused.
    destruct parent as [ | | | | | | | | ? k u ? ]; simpl in Hk;
      destruct Hk as [Hk|Hk]; try discriminate Hk;
      try (subst k; discriminate u).
    - apply isReturnValueUsed_call in Hused as (a & Ha & Hs).
      rewrite (Hout _ a eq_refl Ha) in Hs. discriminate.
    - apply isReturnValueUsed_new in Hused as (args & -> & a & Ha & Hs).
      rewrite (Hout _ a eq_refl Ha) in Hs. discriminate. }
  split; [|split; [|split]].
  - reflexivity.
  - intros parent args node Hk Hargs Hout. apply Hnot; [exact Hk|].
    intros pargs a Hp. rewrite Hargs in Hp. injection Hp as <-. apply Hout.
  - intros parent node args arg0 failures Hk Hout Hargs H0 Hlit.
    rewrite report_reported.
    destruct (isObjectAssignCall node) eqn:Hm.
    + apply isObjectAssignCall_iff in Hm.
      destruct (reported_matched hasSideEffects parent node Hm)
        as (args' & arg0' & fix_ & Hargs' & H0' & _ & ->).
      rewrite Hargs in Hargs'. injection Hargs' as <-.
      rewrite H0 in H0'. injection H0' as <-.
      apply kind_eqb_neq in Hlit. rewrite Hlit, (Hnot _ _ Hk Hout).
      simpl. rewrite app_nil_r. reflexivity.
    + rewrite reported_unmatched by exact Hm. rewrite app_nil_r. reflexivity.
  - reflexivity.
Qed.

Lemma callee_position_not_used_witness :
  isReturnValueUsed Samples.call6 Samples.inner6 = false /\
  report (fun _ _ => false) Samples.call6 Samples.inner6 [] = Some (tt, []).
Proof.
  destruct (callee_position_not_used (fun _ _ => false)) as (_ & Hcallee & Hrep & _).
  assert (Hout : forall a,
    a ∈ [Samples.ident 9 20 21 "x"] -> same_node a Samples.inner6 = false).
  { intros a Ha. apply list_elem_of_singleton in Ha as ->. reflexivity. }
  split.
  - apply (Hcallee Samples.call6 (mkArray [Samples.ident 9 20 21 "x"] 21 None)
             Samples.inner6 (or_introl eq_refl) eq_refl Hout).
  - apply (Hrep Samples.call6 Samples.inner6
             (mkArray [Samples.ident 7 14 15 "a"; Samples.ident 8 17 18 "b"] 18 None)
             (Samples.ident 7 14 15 "a") [] (or_introl eq_refl));
      try reflexivity; try discriminate.
    intros pargs a [= <-]. apply Hout.
Defined.

(** * Part IV: further properties of the fix generator and the classifier *)

(** X1 (the first half of C2): the ops of the fix of a matched call, on
    offsets a parser leaves, are pairwise non-overlapping, and the applier
    accepts them on any text. *)
Theorem createFix_ops_do_not_overlap (node : Node) :
  ObjectAssignShape node ->
  PositionsInOrder node ->
  exists fix_,
    createFix node = Some fix_ /\
    NonOverlapping fix_ /\
    forall text, is_Some (applyAll text fix_).
Proof.
  intros Hshape Hpos.
  pose proof (shape_arguments node Hshape) as (args & arg0' & Hargs & H0).
  assert (Hlo : 0 <= getStart node).
  { unfold PositionsInOrder in Hpos. rewrite Hargs in Hpos.
    destruct (elements args); [discriminate|]. lia. }
  destruct (createFix_chain node Hshape Hpos)
    as (_ & arg0 & pieces & _ & _ & _ & Hfix & Hchain).
  exists (fixHeader node arg0 ++ concat pieces). split; [exact Hfix|].
  set (open := replaceFromTo (getStart node) (getStart arg0) "{") in *.
  set (close := mkReplacement (node_end node - 1) 1 "}") in *.
  set (body := concat pieces) in *.
  change (fixHeader node arg0 ++ body) with (open :: close :: body).
  split.
  - apply Disjoint_NonOverlapping.
    apply (Disjoint_Permutation (open :: body ++ [close])).
    + constructor. rewrite Permutation_app_comm. reflexivity.
    + exact (chain_disjoint _ _ _ Hchain).
  - intros text. unfold applyAll.
    rewrite (byOffset_fix _ _ _ _ _ Hchain) by (simpl; lia).
    apply (splice_chain text 0 (node_end node)).
    apply (chain_weaken (getStart node) 0 (node_end node) (node_end node));
      [exact Hlo|lia|exact Hchain].
Qed.

Lemma createFix_ops_do_not_overlap_witness :
  exists fix_,
    createFix Samples.call1 = Some fix_ /\
    NonOverlapping fix_ /\
    forall text, is_Some (applyAll text fix_).
Proof.
  apply (createFix_ops_do_not_overlap Samples.call1).
  - apply isObjectAssignCall_iff. reflexivity.
  - unfold PositionsInOrder, argumentSpan. simpl.
    repeat split;
      try match goal with
          | H : last _ = Some _ |- _ =>
              cbn in H; first [discriminate H | injection H as <-]
          end;
      unfold getStart, node_end; cbn; lia.
Defined.

(** X2: on offsets a parser leaves, applying the fix of a matched call
    keeps the text before the call and the text after it, and puts between
    them an opening brace, the arguments as [rendered] reads them off the
    original text, and a closing brace. *)
Theorem fixedText_rewrites_call_span (text : string) (node : Node) :
  ObjectAssignShape node ->
  PositionsInOrder node ->
  exists args arg0,
    arguments_of node = Some args /\
    elements args !! 0%nat = Some arg0 /\
    fixedText text node =
    Some (slice text 0 (getStart node) ++ "{" ++
          rendered text args (node_end node - 1) (getStart arg0) (elements args) ++
          "}" ++ rest_from text (node_end node))%string.
Proof.
  intros Hshape Hpos.
  destruct (createFix_chain node Hshape Hpos)
    as (args & arg0 & pieces & Hargs & H0 & Hall & Hfix & Hchain).
  exists args, arg0. repeat (split; [assumption|]).
  unfold PositionsInOrder in Hpos. rewrite Hargs in Hpos.
  destruct (elements args) as [|arg0' rest] eqn:He; [discriminate|].
  injection H0 as ->. destruct Hpos as (Hstart & Hord & Hend).
  unfold fixedText. rewrite Hfix. cbn [mbind option_bind]. unfold applyAll.
  change (fixHeader node arg0 ++ concat pieces)
    with (replaceFromTo (getStart node) (getStart arg0) "{" ::
          mkReplacement (node_end node - 1) 1 "}" :: concat pieces).
  rewrite (byOffset_fix _ _ _ _ _ Hchain) by (simpl; lia).
  simpl splice at 1.
  destruct (Z.ltb_spec (getStart node) 0); [lia|].
  destruct (Z.ltb_spec (getStart arg0 - getStart node) 0); [lia|]. simpl.
  unfold r_end at 1. simpl r_start. simpl r_length.
  replace (getStart node + (getStart arg0 - getStart node)) with (getStart arg0) by lia.
  rewrite (splice_rendered text args _ (arg0 :: rest) [] pieces (getStart arg0)
             He Hord Hall) by (simpl; lia).
  simpl. unfold r_end. simpl.
  replace (node_end node - 1 + 1) with (node_end node) by lia. reflexivity.
Qed.

Lemma fixedText_rewrites_call_span_witness :
  exists args arg0,
    arguments_of Samples.call1 = Some args /\
    elements args !! 0%nat = Some arg0 /\
    fixedText Samples.text1 Samples.call1 =
    Some (slice Samples.text1 0 0 ++ "{" ++
          rendered Samples.text1 args 27 (getStart arg0) (elements args) ++
          "}" ++ rest_from Samples.text1 28)%string.
Proof.
  apply (fixedText_rewrites_call_span Samples.text1 Samples.call1).
  - apply isObjectAssignCall_iff. reflexivity.
  - unfold PositionsInOrder, argumentSpan. simpl.
    repeat split;
      try match goal with
          | H : last _ = Some _ |- _ =>
              cbn in H; first [discriminate H | injection H as <-]
          end;
      unfold getStart, node_end; cbn; lia.
Defined.

(** X3: in the fix of a matched call, an argument that is an object literal
    with at least one property contributes two deletions: the one character
    at its start (the opening brace), and the span from the end of its last
    property to its own end. *)
Theorem literal_braces_deleted (node : Node) (args : NodeArray Node) (i : nat)
    (inf : NodeInfo) (props : NodeArray Node) (lastProperty : Node) :
  ObjectAssignShape node ->
  arguments_of node = Some args ->
  elements args !! i = Some (ObjectLiteralExpression inf props) ->
  last (elements props) = Some lastProperty ->
  exists arg0 pieces,
    elements args !! 0%nat = Some arg0 /\
    pushedByLoop args = Some pieces /\
    createFix node = Some (fixHeader node arg0 ++ concat pieces) /\
    length pieces = length (elements args) /\
    pieces !! i =
      Some [deleteText (start inf) 1;
            deleteFromTo (node_end lastProperty) (end_ inf)].
Proof.
  intros Hshape Hargs Hi Hlast.
  destruct (shape_arguments node Hshape) as (args' & arg0 & Hargs' & H0).
  rewrite Hargs in Hargs'. injection Hargs' as <-.
  destruct (createFix_pieces node args arg0 Hargs H0) as (pieces & Hloop & Hfix & Hlen & Hpieces).
  exists arg0, pieces. repeat (split; [assumption|]).
  pose proof (lookup_lt_Some _ _ _ Hi) as Hlt.
  rewrite <- (Hpieces i Hlt). unfold fixArgument. rewrite Hi. simpl.
  rewrite last_lookup in Hlast.
  destruct (elements props) as [|p ps] eqn:Hprops; [discriminate|].
  replace (Z.of_nat (length (p :: ps)) =? 0) with false
    by (symmetry; apply Z.eqb_neq; simpl; lia).
  replace (length (p :: ps) - 1)%nat with (Init.Nat.pred (length (p :: ps)))
    by (simpl; lia).
  rewrite Hlast. reflexivity.
Qed.

Lemma literal_braces_deleted_witness :
  exists arg0 pieces,
    elements Samples.args1 !! 0%nat = Some arg0 /\
    pushedByLoop Samples.args1 = Some pieces /\
    createFix Samples.call1 = Some (fixHeader Samples.call1 arg0 ++ concat pieces) /\
    length pieces = 3%nat /\
    pieces !! 1%nat = Some [deleteText 18 1; deleteFromTo 23 24].
Proof.
  exact (literal_braces_deleted Samples.call1 Samples.args1 1
           (mkInfo 7 18 24) (mkArray [Samples.prop1 8 19 "a"] 23 None)
           (Samples.prop1 8 19 "a")
           (proj1 (isObjectAssignCall_iff Samples.call1) eq_refl)
           eq_refl eq_refl eq_refl).
Defined.

(** X4: the classifier answers by the kind of the parent alone for every
    parent that is not a binary expression, a call or a [new]: used under a
    variable declaration, a property assignment, a property declaration, a
    return statement, a binding element and an array literal, and not used
    under any other kind. *)
Theorem isReturnValueUsed_by_parent_kind (parent node : Node) :
  kind parent <> SyntaxKind.BinaryExpression ->
  kind parent <> SyntaxKind.CallExpression ->
  kind parent <> SyntaxKind.NewExpression ->
  (isReturnValueUsed parent node = true <->
   kind parent ∈ [SyntaxKind.VariableDeclaration; SyntaxKind.PropertyAssignment;
                  SyntaxKind.PropertyDeclaration; SyntaxKind.ReturnStatement;
                  SyntaxKind.BindingElement; SyntaxKind.ArrayLiteralExpression]).
Proof.
  intros Hb Hc Hn. unfold isReturnValueUsed.
  destruct (kind parent); try congruence;
    rewrite !elem_of_cons, elem_of_nil;
    (split; [intros Hused | intros Hin]);
    try reflexivity; try discriminate Hused; intuition (try discriminate; auto).
Qed.

Lemma isReturnValueUsed_by_parent_kind_witness :
  isReturnValueUsed Samples.declaration8 Samples.call8 = true <->
  kind Samples.declaration8
    ∈ [SyntaxKind.VariableDeclaration; SyntaxKind.PropertyAssignment;
       SyntaxKind.PropertyDeclaration; SyntaxKind.ReturnStatement;
       SyntaxKind.BindingElement; SyntaxKind.ArrayLiteralExpression].
Proof.
  apply (isReturnValueUsed_by_parent_kind Samples.declaration8 Samples.call8);
    discriminate.
Defined.

(** X5: [const x = Object.assign(y, z)] is reported once, with the
    assignment message, when the oracle finds no side effect in [y], and
    its fix turns the text into [const x = {...y, ...z}]; the statement
    [Object.assign(y, z);] is not reported, whatever the oracle answers. *)
Theorem declaration_reported_statement_not
    (hasSideEffects : Node -> SideEffectOptions -> bool) :
  hasSideEffects Samples.y8 Constructor = false ->
  apply hasSideEffects Samples.file8 =
    Some [mkFailure Samples.call8 ASSIGNMENT_FAILURE_STRING
            (createFix Samples.call8)] /\
  fixedText Samples.text8 Samples.call8 = Some "const x = {...y, ...z}" /\
  apply hasSideEffects Samples.file9 = Some [].
Proof.
  intros Hpure. split; [|split; reflexivity].
  vm_compute in Hpure. vm_compute. rewrite Hpure. reflexivity.
Qed.

Lemma declaration_reported_statement_not_witness :
  apply (fun _ _ => false) Samples.file8 =
    Some [mkFailure Samples.call8 ASSIGNMENT_FAILURE_STRING
            (createFix Samples.call8)] /\
  fixedText Samples.text8 Samples.call8 = Some "const x = {...y, ...z}" /\
  apply (fun _ _ => false) Samples.file9 = Some [].
Proof.
  apply (declaration_reported_statement_not (fun _ _ => false)). reflexivity.
Defined.

(** * Part V: further properties of the whole run *)

(** ** What a run reports *)

Lemma flat_map_ext_elem {A B : Type} (f g : A -> list B) (l : list A) :
  (forall x, x ∈ l -> f x = g x) -> flat_map f l = flat_map g l.
Proof.
  induction l as [|x l IH]; intros H; simpl; [reflexivity|].
  rewrite (H x) by left. rewrite IH; [reflexivity|].
  intros y Hy. apply H. right. exact Hy.
Qed.

Lemma sublist_flat_map {A B : Type} (f g : A -> list B) (l : list A) :
  (forall x, x ∈ l -> sublist (f x) (g x)) -> sublist (flat_map f l) (flat_map g l).
Proof.
  induction l as [|x l IH]; intros H; simpl; [constructor|].
  apply sublist_app; [apply H; left|]. apply IH. intros y Hy. apply H. right. exact Hy.
Qed.

Lemma reported_length (hasSideEffects : Node -> SideEffectOptions -> bool)
    (parent node : Node) :
  (length (reported hasSideEffects parent node) <=
   if isObjectAssignCall node then 1 else 0)%nat.
Proof.
  destruct (isObjectAssignCall node) eqn:Hm.
  - apply isObjectAssignCall_iff in Hm.
    destruct (reported_matched hasSideEffects parent node Hm)
      as (args & arg0 & fix_ & _ & _ & _ & ->).
    destruct (SyntaxKind.eqb _ _); [simpl; lia|].
    destruct (_ && _); simpl; lia.
  - rewrite reported_unmatched by exact Hm. simpl. lia.
Qed.

(** The classifier looks at a parent without properties of interest through
    its kind alone. *)
Lemma reported_under_plain (hasSideEffects : Node -> SideEffectOptions -> bool)
    (i i' : NodeInfo) (k : SyntaxKind.t) (u : SyntaxKind.shaped k = false)
    (cs cs' : list Node) (node : Node) :
  reported hasSideEffects (OtherNode i k u cs) node =
  reported hasSideEffects (OtherNode i' k u cs') node.
Proof. reflexivity. Qed.

(** What a subtree contributes depends on what is around it through the
    classifier's answer for its root only. *)
Lemma preorder_reported_context (hasSideEffects : Node -> SideEffectOptions -> bool)
    (parent parent' node : Node) :
  reported hasSideEffects parent node = reported hasSideEffects parent' node ->
  flat_map (reportedAt hasSideEffects) (preorder parent node) =
  flat_map (reportedAt hasSideEffects) (preorder parent' node).
Proof.
  intros H. rewrite !preorder_children. simpl. unfold reportedAt at 1 3. simpl.
  rewrite H. reflexivity.
Qed.


(** X7: the run consults the side-effect oracle for the first argument of
    a matched call whose first argument is not an object literal and whose
    value is used, in the constructor category, and for nothing else: two
    oracles that agree there lead to the same failures. *)
Theorem apply_asks_about_first_arguments_only
    (h1 h2 : Node -> SideEffectOptions -> bool) (sourceFile : Node) :
  (forall parent node args arg0,
     (parent, node) ∈ descendants sourceFile ->
     ObjectAssignShape node ->
     arguments_of node = Some args ->
     elements args !! 0%nat = Some arg0 ->
     kind arg0 <> SyntaxKind.ObjectLiteralExpression ->
     isReturnValueUsed parent node = true ->
     h1 arg0 Constructor = h2 arg0 Constructor) ->
  apply h1 sourceFile = apply h2 sourceFile.
Proof.
  intros Hagree. unfold apply. rewrite !walk_descendants. simpl. f_equal.
  apply flat_map_ext_elem. intros [p n] Hin. unfold reportedAt. simpl.
  destruct (isObjectAssignCall n) eqn:Hm.
  - apply isObjectAssignCall_iff in Hm.
    destruct (reported_matched h1 p n Hm) as (args & arg0 & fix_ & Hargs & H0 & Hfix & ->).
    destruct (reported_matched h2 p n Hm) as (args' & arg0' & fix' & Hargs' & H0' & Hfix' & ->).
    rewrite Hargs in Hargs'. injection Hargs' as <-.
    rewrite H0 in H0'. injection H0' as <-.
    rewrite Hfix in Hfix'. injection Hfix' as <-.
    destruct (SyntaxKind.eqb (kind arg0) SyntaxKind.ObjectLiteralExpression) eqn:Hk;
      [reflexivity|].
    destruct (isReturnValueUsed p n) eqn:Hused; [|reflexivity]. simpl.
    rewrite (Hagree p n args arg0 Hin Hm Hargs H0 (proj1 (kind_eqb_neq _ _) Hk) Hused).
    reflexivity.
  - rewrite !reported_unmatched by exact Hm. reflexivity.
Qed.

Lemma apply_asks_about_first_arguments_only_witness :
  apply (fun _ _ => false) Samples.file8 =
  apply (fun _ o => match o with Constructor => false | _ => true end) Samples.file8.
Proof.
  apply apply_asks_about_first_arguments_only.
  intros parent node args arg0 _ _ _ _ _ _. reflexivity.
Defined.

(** X8: an oracle that finds side effects wherever another one does never
    adds a failure: its failures are a subsequence of the other's. *)
Theorem more_side_effects_fewer_failures
    (h1 h2 : Node -> SideEffectOptions -> bool) (sourceFile : Node) :
  (forall n, h1 n Constructor = true -> h2 n Constructor = true) ->
  exists failures1 failures2,
    apply h1 sourceFile = Some failures1 /\
    apply h2 sourceFile = Some failures2 /\
    sublist failures2 failures1.
Proof.
  intros Hmore. unfold apply. rewrite !walk_descendants. simpl.
  eexists _, _. split; [reflexivity|]. split; [reflexivity|].
  apply sublist_flat_map. intros [p n] _. unfold reportedAt. simpl.
  destruct (isObjectAssignCall n) eqn:Hm.
  - apply isObjectAssignCall_iff in Hm.
    destruct (reported_matched h1 p n Hm) as (args & arg0 & fix_ & Hargs & H0 & Hfix & ->).
    destruct (reported_matched h2 p n Hm) as (args' & arg0' & fix' & Hargs' & H0' & Hfix' & ->).
    rewrite Hargs in Hargs'. injection Hargs' as <-.
    rewrite H0 in H0'. injection H0' as <-.
    rewrite Hfix in Hfix'. injection Hfix' as <-.
    destruct (SyntaxKind.eqb (kind arg0) SyntaxKind.ObjectLiteralExpression);
      [reflexivity|].
    destruct (isReturnValueUsed p n); [|reflexivity]. simpl.
    destruct (h1 arg0 Constructor) eqn:E1.
    + rewrite (Hmore arg0 E1). reflexivity.
    + simpl. destruct (h2 arg0 Constructor); simpl; [apply sublist_nil_l|reflexivity].
  - rewrite !reported_unmatched by exact Hm. reflexivity.
Qed.

Lemma more_side_effects_fewer_failures_witness :
  exists failures1 failures2,
    apply (fun _ _ => false) Samples.file8 = Some failures1 /\
    apply (fun _ _ => true) Samples.file8 = Some failures2 /\
    sublist failures2 failures1.
Proof.
  apply (more_side_effects_fewer_failures (fun _ _ => false) (fun _ _ => true)).
  discriminate.
Defined.

(** ** How the failures of the parts make up those of the whole *)

Lemma reported_context (hasSideEffects : Node -> SideEffectOptions -> bool)
    (parent parent' node : Node) :
  isReturnValueUsed parent node = isReturnValueUsed parent' node ->
  reported hasSideEffects parent node = reported hasSideEffects parent' node.
Proof. intros H. unfold reported, report. rewrite H. reflexivity. Qed.

Lemma reported_children_of_plain (hasSideEffects : Node -> SideEffectOptions -> bool)
    (parent parent' : Node) (l : list Node) :
  (forall n, reported hasSideEffects parent n = reported hasSideEffects parent' n) ->
  flat_map (reportedAt hasSideEffects) (flat_map (preorder parent) l) =
  flat_map (reportedAt hasSideEffects) (flat_map (preorder parent') l).
Proof.
  intros H. rewrite !flat_map_flat_map. apply flat_map_ext_elem. intros n _.
  apply preorder_reported_context, H.
Qed.

(** X9: what the callback finds in a subtree depends on the node above it
    through the classifier's answer for the root of the subtree only; so
    the failures of a source file, a block or any other node without
    properties of interest are those of its first children followed by
    those of the rest, each group as found in a node of the same kind
    holding that group alone; and a node without children has none. *)
Theorem failures_of_parts_compose (hasSideEffects : Node -> SideEffectOptions -> bool) :
  (forall parent parent' node failures,
     isReturnValueUsed parent node = isReturnValueUsed parent' node ->
     cb hasSideEffects parent node failures =
     cb hasSideEffects parent' node failures) /\
  (forall i i1 i2 k u l1 l2,
     exists failures1 failures2,
       apply hasSideEffects (OtherNode i1 k u l1) = Some failures1 /\
       apply hasSideEffects (OtherNode i2 k u l2) = Some failures2 /\
       apply hasSideEffects (OtherNode i k u (l1 ++ l2)) =
         Some (failures1 ++ failures2)) /\
  (forall i k u, apply hasSideEffects (OtherNode i k u []) = Some []).
Proof.
  split; [|split].
  - intros parent parent' node failures H. rewrite !cb_preorder.
    rewrite (preorder_reported_context hasSideEffects parent parent' node);
      [reflexivity|]. apply reported_context, H.
  - intros i i1 i2 k u l1 l2. unfold apply. rewrite !walk_descendants. simpl.
    eexists _, _. split; [reflexivity|]. split; [reflexivity|]. f_equal.
    unfold descendants. simpl. rewrite !flat_map_app. f_equal.
    + apply reported_children_of_plain. intros n. apply reported_under_plain.
    + apply reported_children_of_plain. intros n. apply reported_under_plain.
  - reflexivity.
Qed.

Lemma failures_of_parts_compose_witness :
  cb (fun _ _ => false) Samples.statement4 Samples.inner4 [] =
  cb (fun _ _ => false) Samples.call6 Samples.inner4 [].
Proof.
  destruct (failures_of_parts_compose (fun _ _ => false)) as (Hcb & _).
  apply (Hcb Samples.statement4 Samples.call6 Samples.inner4 []). reflexivity.
Defined.

Lemma flat_map_reported_length (hasSideEffects : Node -> SideEffectOptions -> bool)
    (l : list (Node * Node)) :
  (length (flat_map (reportedAt hasSideEffects) l) <=
   length (List.filter matchedCall l))%nat.
Proof.
  induction l as [|[p n] l IH]; simpl; [lia|].
  rewrite length_app. unfold reportedAt at 1, matchedCall at 1. simpl.
  pose proof (reported_length hasSideEffects p n) as H.
  destruct (isObjectAssignCall n); simpl; lia.
Qed.

(** X10: a run reports no more failures than the source file has calls of
    the matched shape below it, and, in a tree no node of which occurs
    twice, no two failures are anchored at the same call. *)
Theorem each_call_reported_at_most_once
    (hasSideEffects : Node -> SideEffectOptions -> bool) (sourceFile : Node) :
  exists failures,
    apply hasSideEffects sourceFile = Some failures /\
    (length failures <= length (List.filter matchedCall (descendants sourceFile)))%nat /\
    (NoDup ((fun pn => ref (info (snd pn))) <$> descendants sourceFile) ->
     NoDup ((fun f => ref (info (failure_node f))) <$> failures)).
Proof.
  exists (flat_map (reportedAt hasSideEffects) (descendants sourceFile)).
  split; [|split].
  - unfold apply. rewrite walk_descendants. reflexivity.
  - apply flat_map_reported_length.
  - intros Hnodup. eapply sublist_NoDup; [exact Hnodup|].
    pose proof (reported_nodes_sublist hasSideEffects (descendants sourceFile)) as H.
    apply (fmap_sublist (fun n => ref (info n))) in H.
    rewrite <- !list_fmap_compose in H. exact H.
Qed.

Lemma each_call_reported_at_most_once_witness :
  exists failures,
    apply (fun _ _ => false) Samples.file5 = Some failures /\
    (length failures <= 2)%nat /\
    NoDup ((fun f => ref (info (failure_node f))) <$> failures).
Proof.
  destruct (each_call_reported_at_most_once (fun _ _ => false) Samples.file5)
    as (failures & Happ & Hlen & Hnodup).
  exists failures. split; [exact Happ|]. split; [exact Hlen|].
  apply Hnodup. apply (bool_decide_unpack _). vm_compute. reflexivity.
Defined.

(** * Part VI: further properties of the fix generator *)

(** ** The ops of a fix, argument by argument *)

Lemma isObjectLiteralExpression_spec (n : Node) :
  isObjectLiteralExpression n = true <->
  exists inf props, n = ObjectLiteralExpression inf props.
Proof.
  unfold isObjectLiteralExpression. rewrite kind_eqb_eq. split.
  - destruct n as [ | | | | inf props | | | | ? k u ? ]; simpl; try discriminate.
    + intros _. eexists _, _. reflexivity.
    + intros ->. discriminate u.
  - intros (inf & props & ->). reflexivity.
Qed.

Lemma argument_kinds (a : Node) :
  (isObjectLiteralExpression a = true -> needsParens a = false) /\
  (hasProperties a = true -> isObjectLiteralExpression a = true).
Proof.
  split.
  - intros H. apply isObjectLiteralExpression_spec in H as (inf & props & ->). reflexivity.
  - destruct a; simpl; try discriminate. reflexivity.
Qed.

Lemma fixArgument_texts (args : NodeArray Node) (i : nat) (arg : Node)
    (piece : list Replacement) :
  elements args !! i = Some arg ->
  fixArgument args i = Some piece ->
  map r_text piece = pushedTexts arg /\
  Forall (fun r => r_text r = EmptyString \/ r_length r = 0) piece.
Proof.
  intros Hi Hpiece.
  destruct (list_elem_of_split_length _ _ _ Hi) as (pre & rest & He & ->).
  rewrite (fixArgument_at args pre rest arg He) in Hpiece. injection Hpiece as <-.
  unfold pushedTexts.
  destruct (isObjectLiteralExpression arg) eqn:Hlit.
  - apply isObjectLiteralExpression_spec in Hlit as (inf & props & ->).
    cbn [hasProperties]. rewrite last_lookup.
    destruct (elements props) as [|p ps]; cbn [length Init.Nat.pred lookup].
    + split; [reflexivity|]. constructor; [left; reflexivity|constructor].
    + destruct (lookup_lt_is_Some_2 (p :: ps) (length ps)) as [q Hq]; [cbn [length]; lia|].
      rewrite Hq. split; [reflexivity|].
      constructor; [left; reflexivity|]. constructor; [left; reflexivity|constructor].
  - assert (Hsame :
      match arg with
      | ObjectLiteralExpression inf props =>
          match last (elements props) with
          | Some p => [deleteText (start inf) 1; deleteFromTo (node_end p) (end_ inf)]
          | None =>
              [deleteFromTo (start inf)
                 match rest with
                 | [] => if decide (hasTrailingComma args = Some true)
                         then array_end args else end_ inf
                 | next :: _ => getStart next
                 end]
          end
      | _ =>
          appendText (getStart arg) (if needsParens arg then "...(" else "...")
            :: (if needsParens arg then [appendText (node_end arg) ")"] else [])
      end =
      appendText (getStart arg) (if needsParens arg then "...(" else "...")
        :: (if needsParens arg then [appendText (node_end arg) ")"] else [])).
    { destruct arg; try reflexivity.
      assert (isObjectLiteralExpression (ObjectLiteralExpression i properties) = true)
        by (apply isObjectLiteralExpression_spec; eexists _, _; reflexivity).
      congruence. }
    rewrite Hsame.
    destruct (needsParens arg); (split; [reflexivity|]).
    + constructor; [right; reflexivity|]. constructor; [right; reflexivity|constructor].
    + constructor; [right; reflexivity|constructor].
Qed.

Lemma pushedByLoop_Forall2 (args : NodeArray Node) (pieces : list (list Replacement))
    (P : Node -> list Replacement -> Prop) :
  pushedByLoop args = Some pieces ->
  (forall i arg piece,
     elements args !! i = Some arg -> fixArgument args i = Some piece -> P arg piece) ->
  Forall2 P (elements args) pieces.
Proof.
  intros Hloop HP. unfold pushedByLoop in Hloop. apply mapM_Some in Hloop.
  pose proof (Forall2_length _ _ _ Hloop) as Hlen. rewrite length_seq in Hlen.
  apply Forall2_same_length_lookup_2; [exact Hlen|].
  intros i arg piece Hi Hp. apply (HP i arg piece Hi).
  eapply (Forall2_lookup_lr _ _ _ i i piece) in Hloop; [exact Hloop| |exact Hp].
  rewrite lookup_seq. split; [reflexivity|]. eapply lookup_lt_Some; exact Hi.
Qed.

(** A fix is its two braces and then what the loop pushed. *)
Lemma createFix_body (node : Node) (args : NodeArray Node) (fix_ : Fix) :
  arguments_of node = Some args ->
  createFix node = Some fix_ ->
  exists arg0 pieces,
    elements args !! 0%nat = Some arg0 /\
    pushedByLoop args = Some pieces /\
    fix_ = fixHeader node arg0 ++ concat pieces.
Proof.
  intros Hargs Hfix.
  destruct (elements args !! 0%nat) as [arg0|] eqn:H0.
  - destruct (createFix_pieces node args arg0 Hargs H0) as (pieces & Hloop & Hfix' & _).
    exists arg0, pieces. split; [reflexivity|]. split; [exact Hloop|]. congruence.
  - unfold createFix in Hfix. rewrite Hargs in Hfix. simpl in Hfix.
    rewrite H0 in Hfix. discriminate.
Qed.

Lemma pieces_texts (l : list Node) (pieces : list (list Replacement)) :
  Forall2 (fun arg piece =>
             map r_text piece = pushedTexts arg /\
             Forall (fun r => r_text r = EmptyString \/ r_length r = 0) piece)
    l pieces ->
  map r_text (concat pieces) = flat_map pushedTexts l /\
  Forall (fun r => r_text r = EmptyString \/ r_length r = 0) (concat pieces).
Proof.
  induction 1 as [|arg piece rest pieces' [Ht Hp] _ [IHt IHp]];
    simpl concat; simpl flat_map.
  - split; [reflexivity|constructor].
  - rewrite map_app, Ht, IHt. split; [reflexivity|].
    apply Forall_app. split; assumption.
Qed.

Lemma createFix_texts (node : Node) (args : NodeArray Node) (fix_ : Fix) :
  arguments_of node = Some args ->
  createFix node = Some fix_ ->
  map r_text fix_ = "{" :: "}" :: flat_map pushedTexts (elements args) /\
  Forall (fun r => r_text r = EmptyString \/ r_length r = 0) (drop 2 fix_).
Proof.
  intros Hargs Hfix.
  destruct (createFix_body node args fix_ Hargs Hfix) as (arg0 & pieces & _ & Hloop & ->).
  destruct (pieces_texts (elements args) pieces) as [Ht Hp].
  { apply (pushedByLoop_Forall2 args pieces _ Hloop). apply fixArgument_texts. }
  unfold fixHeader. cbn [app map drop r_text].
  rewrite Ht. split; [reflexivity|exact Hp].
Qed.

(** Counts the occurrences of a text among the texts of one iteration. *)
Ltac count_texts :=
  repeat match goal with
         | |- context [length (List.filter (String.eqb ?s) [?a])] =>
             let v := eval vm_compute in (length (List.filter (String.eqb s) [a])) in
             change (length (List.filter (String.eqb s) [a])) with v
         | |- context [length (List.filter (String.eqb ?s) [?a; ?b])] =>
             let v := eval vm_compute in (length (List.filter (String.eqb s) [a; b])) in
             change (length (List.filter (String.eqb s) [a; b])) with v
         end.

Lemma pushedTexts_counts (l : list Node) :
  length (List.filter (String.eqb "{") (flat_map pushedTexts l)) = 0%nat /\
  length (List.filter (String.eqb "}") (flat_map pushedTexts l)) = 0%nat /\
  length (List.filter (String.eqb "...(") (flat_map pushedTexts l)) =
    length (List.filter needsParens l) /\
  length (List.filter (String.eqb ")") (flat_map pushedTexts l)) =
    length (List.filter needsParens l) /\
  (length (List.filter (String.eqb "...") (flat_map pushedTexts l)) +
   length (List.filter needsParens l) +
   length (List.filter isObjectLiteralExpression l) = length l)%nat /\
  length (List.filter (String.eqb EmptyString) (flat_map pushedTexts l)) =
    (length (List.filter isObjectLiteralExpression l) +
     length (List.filter hasProperties l))%nat /\
  length (flat_map pushedTexts l) =
    (length l + length (List.filter needsParens l) +
     length (List.filter hasProperties l))%nat.
Proof.
  induction l as [|a l (IH1 & IH2 & IH3 & IH4 & IH5 & IH6 & IH7)].
  - repeat split.
  - cbn [flat_map List.filter].
    rewrite !List.filter_app, !length_app, IH1, IH2, IH3, IH4, IH6, IH7.
    set (spreads := length (List.filter (String.eqb "...") (flat_map pushedTexts l))) in *.
    destruct (argument_kinds a) as [Hlp Hpl]. unfold pushedTexts.
    destruct (isObjectLiteralExpression a);
      destruct (hasProperties a); try (discriminate (Hpl eq_refl));
      destruct (needsParens a); try (discriminate (Hlp eq_refl));
      count_texts; cbn [length]; repeat split; lia.
Qed.

Lemma pushedTexts_vocabulary (l : list Node) :
  Forall (fun t => t ∈ ["{"; "}"; EmptyString; "..."; "...("; ")"])
    (flat_map pushedTexts l).
Proof.
  induction l as [|a l IH]; simpl; [constructor|].
  apply Forall_app. split; [|exact IH]. unfold pushedTexts.
  destruct (isObjectLiteralExpression a), (hasProperties a), (needsParens a);
    repeat (apply Forall_cons; split; [repeat constructor|]); apply Forall_nil_2.
Qed.

(** X11: [createFix] answers a fix exactly for a call with at least one
    argument (without one it reads a property of [undefined]), and the
    loop never reads past the argument list or past the properties of an
    object literal; the guard of the walker lets only such calls through.
    A fix starts with the two braces and has one op more for every
    argument, one more for every argument that needs parentheses and one
    more for every object literal with properties. *)
Theorem createFix_needs_an_argument (i : NodeInfo) (e : Node)
    (targs : option (NodeArray Node)) (args : NodeArray Node) :
  (is_Some (createFix (CallExpression i e targs args)) <-> elements args <> []) /\
  (forall fix_,
     createFix (CallExpression i e targs args) = Some fix_ ->
     exists arg0,
       elements args !! 0%nat = Some arg0 /\
       take 2 fix_ = fixHeader (CallExpression i e targs args) arg0 /\
       length fix_ =
         (2 + length (elements args) +
          length (List.filter needsParens (elements args)) +
          length (List.filter hasProperties (elements args)))%nat) /\
  (forall node, isObjectAssignCall node = true -> is_Some (createFix node)).
Proof.
  set (node := CallExpression i e targs args).
  split; [|split].
  - split.
    + intros [fix_ Hfix].
      destruct (createFix_body node args fix_ eq_refl Hfix) as (arg0 & _ & H0 & _).
      intros Hnil. rewrite Hnil in H0. discriminate.
    + intros Hne. apply (createFix_total node args eq_refl Hne).
  - intros fix_ Hfix.
    destruct (createFix_body node args fix_ eq_refl Hfix) as (arg0 & pieces & H0 & _ & Hshape).
    exists arg0. split; [exact H0|]. split; [rewrite Hshape; reflexivity|].
    destruct (createFix_texts node args fix_ eq_refl Hfix) as [Ht _].
    apply (f_equal (@length string)) in Ht. rewrite length_map in Ht. rewrite Ht.
    destruct (pushedTexts_counts (elements args)) as (_ & _ & _ & _ & _ & _ & Hlen).
    cbn [length]. rewrite Hlen. lia.
  - intros n Hm. apply isObjectAssignCall_iff in Hm.
    destruct (reported_matched (fun _ _ => false) n n Hm)
      as (_ & _ & fix_ & _ & _ & Hfix & _).
    exists fix_. exact Hfix.
Qed.

Lemma createFix_needs_an_argument_witness :
  exists arg0,
    elements Samples.args2 !! 0%nat = Some arg0 /\
    take 2 (default [] (createFix Samples.call2)) = fixHeader Samples.call2 arg0 /\
    length (default [] (createFix Samples.call2)) = 5%nat.
Proof.
  destruct (createFix_needs_an_argument (mkInfo 2 0 30) (Samples.objectAssign 3 0)
              None Samples.args2) as (_ & Hfix & _).
  exact (Hfix (default [] (createFix Samples.call2)) eq_refl).
Defined.

(** X12: the texts of the ops of a fix are the two braces and then, per
    argument in order, what [pushedTexts] lists; so a fix inserts exactly
    one opening and one closing brace, as many closing parentheses as
    spread markers with an opening parenthesis, one of either for every
    argument that needs parentheses, one spread marker with or without
    parenthesis for every argument that is not an object literal, and no
    other text; and past the two braces every op is a deletion or an
    insertion that replaces no text. *)
Theorem createFix_inserted_texts (node : Node) (args : NodeArray Node) (fix_ : Fix) :
  arguments_of node = Some args ->
  createFix node = Some fix_ ->
  map r_text fix_ = "{" :: "}" :: flat_map pushedTexts (elements args) /\
  insertions "{" fix_ = 1%nat /\
  insertions "}" fix_ = 1%nat /\
  insertions "...(" fix_ = length (List.filter needsParens (elements args)) /\
  insertions ")" fix_ = insertions "...(" fix_ /\
  (insertions "..." fix_ + insertions "...(" fix_ +
   length (List.filter isObjectLiteralExpression (elements args)) =
   length (elements args))%nat /\
  Forall (fun r => r_text r ∈ ["{"; "}"; EmptyString; "..."; "...("; ")"]) fix_ /\
  Forall (fun r => r_text r = EmptyString \/ r_length r = 0) (drop 2 fix_).
Proof.
  intros Hargs Hfix.
  destruct (createFix_texts node args fix_ Hargs Hfix) as [Ht Hpure].
  destruct (pushedTexts_counts (elements args))
    as (Hopen & Hclose & Hparen & Hend & Hspread & _ & _).
  unfold insertions. rewrite Ht.
  split; [reflexivity|].
  change ("{" :: "}" :: flat_map pushedTexts (elements args))
    with (["{"; "}"] ++ flat_map pushedTexts (elements args)).
  rewrite !List.filter_app, !length_app, Hopen, Hclose, Hparen, Hend.
  count_texts.
  repeat (split; [lia|]). split; [|exact Hpure].
  apply Forall_forall. intros r Hr.
  assert (Hin : r_text r ∈ map r_text fix_).
  { apply list_elem_of_In, in_map, list_elem_of_In, Hr. }
  rewrite Ht in Hin. apply elem_of_cons in Hin as [->|Hin]; [repeat constructor|].
  apply elem_of_cons in Hin as [->|Hin]; [repeat constructor|].
  pose proof (pushedTexts_vocabulary (elements args)) as Hv.
  rewrite Forall_forall in Hv. apply Hv, Hin.
Qed.

Lemma createFix_inserted_texts_witness :
  map r_text (default [] (createFix Samples.call2)) = ["{"; "}"; "...("; ")"; "..."] /\
  insertions ")" (default [] (createFix Samples.call2)) = 1%nat.
Proof.
  destruct (createFix_inserted_texts Samples.call2 Samples.args2
              (default [] (createFix Samples.call2)) eq_refl eq_refl)
    as (Htexts & _ & _ & Hparen & Hend & _).
  split; [exact Htexts|]. rewrite Hend, Hparen. reflexivity.
Defined.

(** ** Where the ops of a fix lie *)

Lemma chain_le (lo hi : Z) (ops : list Replacement) : chain lo ops hi -> lo <= hi.
Proof.
  revert lo. induction ops as [|r ops IH]; intros lo; simpl; [lia|].
  intros (Hlo & Hlen & Hrest). apply IH in Hrest. unfold r_end in Hrest. lia.
Qed.

Lemma chain_within (lo hi : Z) (ops : list Replacement) :
  chain lo ops hi ->
  Forall (fun r => lo <= r_start r /\ 0 <= r_length r /\ r_end r <= hi) ops.
Proof.
  revert lo. induction ops as [|r ops IH]; intros lo; simpl; [constructor|].
  intros (Hlo & Hlen & Hrest). constructor.
  - apply chain_le in Hrest. lia.
  - eapply Forall_impl; [exact (IH _ Hrest)|]. simpl.
    intros x (? & ? & ?). unfold r_end in *. lia.
Qed.

Lemma chain_before_mid (lo hi : Z) (xs ys : list Replacement) (r : Replacement) :
  chain lo (xs ++ r :: ys) hi ->
  Forall (fun x => r_end x <= r_start r) xs.
Proof.
  revert lo. induction xs as [|x xs IH]; intros lo; [constructor|].
  simpl. intros (_ & _ & Hrest). constructor; [|exact (IH _ Hrest)].
  apply chain_within in Hrest. rewrite Forall_app, Forall_cons in Hrest. tauto.
Qed.

Lemma argumentsInOrder_suffix (pre post : list Node) (hi : Z) :
  argumentsInOrder (pre ++ post) hi -> argumentsInOrder post hi.
Proof.
  induction pre as [|x pre IH]; simpl; [auto|]. intros (_ & _ & H). exact (IH H).
Qed.

(** The ops of a fix lie within the call. *)
Lemma createFix_within (node : Node) (fix_ : Fix) :
  ObjectAssignShape node ->
  PositionsInOrder node ->
  createFix node = Some fix_ ->
  Forall (within node) fix_.
Proof.
  intros Hshape Hpos Hfix.
  destruct (createFix_chain node Hshape Hpos)
    as (args & arg0 & pieces & _ & _ & _ & Hfix' & Hchain).
  rewrite Hfix in Hfix'. injection Hfix' as ->.
  apply chain_within in Hchain.
  rewrite Forall_cons, Forall_app, Forall_singleton in Hchain.
  destruct Hchain as (Hopen & Hbody & Hclose).
  unfold fixHeader. simpl. repeat constructor; try apply Hopen; try apply Hclose.
  exact Hbody.
Qed.

(** The ops of a fix leave alone what lies inside an argument: each ends
    before it or starts after it. *)
Lemma createFix_around_argument (node : Node) (fix_ : Fix) (args : NodeArray Node)
    (a n : Node) :
  ObjectAssignShape node ->
  PositionsInOrder node ->
  createFix node = Some fix_ ->
  arguments_of node = Some args ->
  a ∈ elements args ->
  insideArgument a n ->
  Forall (fun r => r_end r <= getStart n \/ node_end n <= r_start r) fix_.
Proof.
  intros Hshape Hpos Hfix Hargs Ha Hin.
  destruct (createFix_chain node Hshape Hpos)
    as (args' & arg0 & pieces & Hargs' & H0 & Hall & Hfix' & Hchain).
  rewrite Hargs in Hargs'. injection Hargs' as <-.
  rewrite Hfix in Hfix'. injection Hfix' as ->.
  destruct (list_elem_of_split _ _ Ha) as (pre & rest & He).
  assert (Hpos' : argumentsInOrder (elements args) (array_end args) /\
                  array_end args <= node_end node - 1).
  { unfold PositionsInOrder in Hpos. rewrite Hargs in Hpos.
    destruct (elements args); [discriminate|]. tauto. }
  destruct Hpos' as (Hord & Hend).
  rewrite He in Hord. apply argumentsInOrder_suffix in Hord.
  (* the pieces, split at the argument *)
  assert (Hsplit : exists before piece after,
    pieces = before ++ piece :: after /\
    fixArgument args (length pre) = Some piece /\
    Forall2 (fun i piece => fixArgument args i = Some piece)
      (seq (length (pre ++ [a])) (length rest)) after).
  { rewrite He, length_app in Hall. simpl length in Hall.
    rewrite seq_app in Hall. simpl in Hall.
    apply List.Forall2_app_inv_l in Hall as (before & tail & _ & Htail & ->).
    inversion Htail as [|i piece ? after Hpiece Hafter]; subst.
    exists before, piece, after. split; [reflexivity|]. split; [exact Hpiece|].
    rewrite length_app. simpl. rewrite Nat.add_1_r. exact Hafter. }
  destruct Hsplit as (before & piece & after & -> & Hpiece & Hafter).
  pose proof (fixArguments_chain args rest (pre ++ [a]) after) as Hrest.
  rewrite <- app_assoc in Hrest. specialize (Hrest He).
  destruct Hord as ((Hse & Hlit) & Hnext & Hord). specialize (Hrest Hord Hafter).
  set (N := match rest with next :: _ => getStart next | [] => array_end args end) in *.
  pose proof (chain_le _ _ _ Hrest) as HN.
  apply chain_within in Hrest.
  (* the argument's own span holds the node *)
  assert (Hspan : getStart a <= getStart n /\ node_end n <= node_end a).
  { destruct a as [ | | | | inf props | | | | ]; try exact Hin.
    destruct Hin as (p & Hp & Hlo & Hhi). specialize (Hlit p Hp).
    unfold getStart, node_end in *. simpl in *. lia. }
  (* the first op of the argument starts where the argument starts *)
  rewrite (fixArgument_at args pre rest a He) in Hpiece. injection Hpiece as <-.
  set (piece := match a with ObjectLiteralExpression _ _ => _ | _ => _ end) in *.
  assert (Hfirst : exists f more, piece = f :: more /\ r_start f = getStart a /\
            Forall (fun r => r_end r <= getStart n \/ node_end n <= r_start r) piece).
  { subst piece.
    destruct a as [ | | | | inf props | | | | ];
      try (destruct (needsParens _); eexists _, _;
           (split; [reflexivity|]); (split; [reflexivity|]);
           repeat constructor; unfold r_end; simpl; lia).
    destruct Hin as (p & Hp & Hlo & Hhi). rewrite Hp.
    eexists _, _. split; [reflexivity|]. split; [reflexivity|].
    unfold getStart, node_end in *. simpl in *.
    repeat constructor; unfold r_end; simpl; lia. }
  destruct Hfirst as (f & more & Hpiece & Hf & Hown).
  assert (Hbefore : Forall (fun x => r_end x <= r_start f)
            (replaceFromTo (getStart node) (getStart arg0) "{" :: concat before)).
  { apply (chain_before_mid (getStart node) (node_end node) _
             (more ++ concat after ++ [mkReplacement (node_end node - 1) 1 "}"])).
    rewrite concat_app in Hchain. simpl concat in Hchain. rewrite Hpiece in Hchain.
    simpl. simpl in Hchain. rewrite <- !app_assoc in Hchain. simpl in Hchain.
    rewrite <- !app_assoc in Hchain. exact Hchain. }
  rewrite Forall_cons in Hbefore. destruct Hbefore as [Hopen Hbefore].
  unfold fixHeader. rewrite concat_app. simpl concat.
  repeat (apply Forall_cons; split).
  - left. lia.
  - right. simpl. lia.
  - rewrite !Forall_app. split; [|split].
    + eapply Forall_impl; [exact Hbefore|]. simpl. intros r Hr. left. lia.
    + exact Hown.
    + eapply Forall_impl; [exact Hrest|]. simpl. intros r (Hr & _). right. lia.
Qed.

(** X13: on offsets a parser leaves, every op of the fix of a matched call
    lies within the call; so the fixes of two matched calls one after the
    other share no character of the text, and neither do the fixes of a
    matched call and of a matched call inside one of its arguments: no op
    of the one overlaps an op of the other. *)
Theorem fixes_of_two_calls_do_not_overlap (call other : Node) (fix1 fix2 : Fix) :
  ObjectAssignShape call -> PositionsInOrder call ->
  ObjectAssignShape other -> PositionsInOrder other ->
  createFix call = Some fix1 ->
  createFix other = Some fix2 ->
  Forall (within call) fix1 /\
  (node_end call <= getStart other \/
   (exists args a,
      arguments_of call = Some args /\ a ∈ elements args /\ insideArgument a other) ->
   forall r1 r2, r1 ∈ fix1 -> r2 ∈ fix2 -> ~ overlap r1 r2).
Proof.
  intros Hshape1 Hpos1 Hshape2 Hpos2 Hfix1 Hfix2.
  pose proof (createFix_within call fix1 Hshape1 Hpos1 Hfix1) as Hin1.
  pose proof (createFix_within other fix2 Hshape2 Hpos2 Hfix2) as Hin2.
  split; [exact Hin1|].
  intros Hwhere r1 r2 Hr1 Hr2 [Hov1 Hov2].
  rewrite Forall_forall in Hin1, Hin2.
  destruct (Hin1 r1 Hr1) as (Hs1 & Hl1 & He1).
  destruct (Hin2 r2 Hr2) as (Hs2 & Hl2 & He2).
  destruct Hwhere as [Hafter | (args & a & Hargs & Ha & Hinside)].
  - lia.
  - pose proof (createFix_around_argument call fix1 args a other
                  Hshape1 Hpos1 Hfix1 Hargs Ha Hinside) as Haround.
    rewrite Forall_forall in Haround. destruct (Haround r1 Hr1); lia.
Qed.

Lemma fixes_of_two_calls_do_not_overlap_witness :
  Forall (within Samples.call5) (default [] (createFix Samples.call5)) /\
  forall r1 r2,
    r1 ∈ default [] (createFix Samples.call5) ->
    r2 ∈ default [] (createFix Samples.inner5) ->
    ~ overlap r1 r2.
Proof.
  assert (Hpos : PositionsInOrder Samples.call5 /\ PositionsInOrder Samples.inner5).
  { split; unfold PositionsInOrder, argumentSpan; simpl;
      repeat split;
      try match goal with
          | H : last _ = Some _ |- _ =>
              cbn in H; first [discriminate H | injection H as <-]
          end;
      unfold getStart, node_end; cbn; lia. }
  destruct Hpos as [Hpos1 Hpos2].
  destruct (fixes_of_two_calls_do_not_overlap Samples.call5 Samples.inner5
              (default [] (createFix Samples.call5))
              (default [] (createFix Samples.inner5))
              (proj1 (isObjectAssignCall_iff Samples.call5) eq_refl) Hpos1
              (proj1 (isObjectAssignCall_iff Samples.inner5) eq_refl) Hpos2
              eq_refl eq_refl) as [Hwithin Hapart].
  split; [exact Hwithin|]. apply Hapart. right.
  exists (mkArray
            [ObjectLiteralExpression (mkInfo 6 14 16) (mkArray [] 15 None);
             Samples.inner5; Samples.ident 13 40 41 "b"] 41 None), Samples.inner5.
  split; [reflexivity|]. split; [right; left|].
  unfold insideArgument, getStart, node_end. simpl. lia.
Defined.
